(** * CEM-RL training loop (torchy_baselines/cem_rl/cem_rl.py)

    A shallow embedding of [CEMRL.__init__], [CEMRL._setup_model],
    [CEMRL.learn], [CEMRL.save] and [CEMRL.load].

    Modelling conventions.
    - The collaborators the class consumes through narrow interfaces (the
      TD3 base class, the CEM strategy, the environment, the replay buffer,
      the networks, numpy's random generator, torch's persistence) are the
      fields of the record [Collab]; their joint mutable state is the
      abstract type [World].  A collaborator acts on [World] only: the
      attributes of the CEMRL object that [learn] itself assigns
      ([num_timesteps], [es_params], [fitnesses]) are changed by the code of
      [learn] alone.  The user callback receives a read-only snapshot of the
      locals.
    - Every collaborator call appends one [Event] to [trace], carrying the
      call's arguments and its returned value, so that what the loop did can
      be read back from the final state.
    - Python integers are [Z]; Python floats are idealised as rationals [Q]
      (no rounding, no NaN); values whose dynamic type matters (the callback's
      return value, the done flag, the [_max_episode_steps] attribute) are
      [pyval].
    - [while] loops take fuel; [for] loops over a range or a list are
      structural.  Python exceptions raised by the code of this file are the
      constructors of [exn]. *)

From Stdlib Require Import ZArith QArith Qminmax String Ascii Lia.
From stdpp Require Import base list.

Open Scope Z_scope.

(** ** Python values *)

Inductive pyval : Type :=
| PyNone
| PyBool (b : bool)
| PyInt (z : Z)
| PyFloat (q : Q)
| PyStr (s : string).

(** [v is False]: identity with the singleton [False]. *)
Definition is_False (v : pyval) : bool :=
  match v with
  | PyBool false => true
  | _ => false
  end.

(** [bool(v)]: Python truthiness. *)
Definition truthy (v : pyval) : bool :=
  match v with
  | PyNone => false
  | PyBool b => b
  | PyInt z => negb (z =? 0)
  | PyFloat q => negb (Qeq_bool q 0)
  | PyStr s => negb (String.eqb s EmptyString)
  end.

(** [float(done)] for a boolean [done]. *)
Definition py_float (done : bool) : pyval :=
  PyFloat (if done then 1%Q else 0%Q).

(** [n == v] for an integer [n] and an arbitrary value [v]. *)
Definition py_int_eq (n : Z) (v : pyval) : bool :=
  match v with
  | PyInt m => n =? m
  | PyBool b => n =? (if b then 1 else 0)
  | PyFloat q => Qeq_bool (inject_Z n) q
  | PyNone | PyStr _ => false
  end.

(** [range(n)] *)
Definition py_range (n : Z) : list Z :=
  map Z.of_nat (seq 0 (Z.to_nat n)).

(** [s.endswith(suffix)] *)
Definition endswith (s suffix : string) : bool :=
  let n := String.length s in
  let k := String.length suffix in
  (k <=? n)%nat && String.eqb (substring (n - k) k s) suffix.

(** ** Collaborators *)

Record TD3Args : Type := mkTD3Args {
  td3_verbose : Z;
  td3_buffer_size : Z;
  td3_learning_rate : Q;
  td3_seed : Z;
  td3_action_noise_std : Q;
  td3_start_timesteps : Z;
  td3_policy_freq : Z;
  td3_batch_size : Z
}.

Record CEMArgs (Vec : Type) : Type := mkCEMArgs {
  cem_num_params : Z;
  cem_mu_init : Vec;
  cem_sigma_init : Q;
  cem_damp : Q;
  cem_damp_limit : Q;
  cem_pop_size : Z;
  cem_antithetic : bool;
  cem_parents : Z;
  cem_elitism : bool
}.
Arguments mkCEMArgs {Vec}.

Record Collab : Type := mkCollab {
  World : Type;
  Vec : Type;
  Obs : Type;
  Batch : Type;
  (* TD3 base class *)
  td3_init : TD3Args -> World -> option World;
  td3_setup_model : World -> option World;
  max_action : Q;
  select_action : Obs -> World -> list Q * World;
  train_critic : Batch -> World -> World;
  train_actor : Batch -> World -> World;
  (* actor and target networks *)
  parameters_to_vector : World -> Vec;
  vec_len : Vec -> Z;
  actor_load_from_vector : Vec -> World -> World;
  actor_target_load_from_vector : Vec -> World -> World;
  new_adam : Q -> World -> World;
  (* evolutionary strategy *)
  cem_new : CEMArgs Vec -> World -> option World;
  es_ask : Z -> World -> list Vec * World;
  es_tell : list Vec -> list Q -> World -> World;
  es_mu : World -> Vec;
  (* replay buffer *)
  replay_sample : Z -> World -> Batch * World;
  replay_add : Obs -> Obs -> list Q -> Q -> pyval -> World -> World;
  (* environment *)
  env_reset : World -> Obs * World;
  env_step : list Q -> World -> (Obs * Q * bool) * World;
  env_max_episode_steps : World -> option pyval;
  action_space_sample : World -> list Q * World;
  action_space_shape0 : Z;
  (* numpy, evaluation, torch *)
  random_normal : Q -> Q -> Z -> World -> list Q * World;
  evaluate_policy : Z -> World -> Q * World;
  th_save : string -> World -> World;
  th_load : string -> World -> World;
  create_aliases : World -> World
}.

(** Hyper-parameters stored on the object by [__init__]; [learn] reads them
    and never assigns them. *)
Record Hyper : Type := mkHyper {
  verbose : Z;
  sigma_init : Q;
  pop_size : Z;
  damp : Q;
  damp_limit : Q;
  elitism : bool;
  n_grad : Z;
  policy_freq : Z;
  batch_size : Z;
  buffer_size : Z;
  learning_rate : Q;
  seed : Z;
  action_noise_std : Q;
  start_timesteps : Z
}.

(** The same arguments with another [n_grad]. *)
Definition set_n_grad (n : Z) (h : Hyper) : Hyper :=
  mkHyper (verbose h) (sigma_init h) (pop_size h) (damp h) (damp_limit h) (elitism h)
          n (policy_freq h) (batch_size h) (buffer_size h) (learning_rate h) (seed h)
          (action_noise_std h) (start_timesteps h).

(** The same arguments with another [policy_freq]. *)
Definition set_policy_freq (n : Z) (h : Hyper) : Hyper :=
  mkHyper (verbose h) (sigma_init h) (pop_size h) (damp h) (damp_limit h) (elitism h)
          (n_grad h) n (batch_size h) (buffer_size h) (learning_rate h) (seed h)
          (action_noise_std h) (start_timesteps h).

Inductive exn : Type :=
| IndexError
| ZeroDivisionError
| ValueError
| CollaboratorError.

(** The local variables of [learn] that live across generations. *)
Record Locals : Type := mkLocals {
  timesteps_since_eval : Z;
  actor_steps : Z;
  episode_num : Z;
  evaluations : list Q
}.

(** How a generation leaves the body of the outer loop. *)
Inductive signal : Type :=
| Break
| Continue (l : Locals).

Section CEMRL.

Context (C : Collab).

Inductive Event : Type :=
| EvAsk (n : Z) (ret : list (Vec C))
| EvCallback (ret : pyval)
| EvLoadActor (v : Vec C)
| EvLoadTarget (v : Vec C)
| EvNewAdam (lr : Q)
| EvSample (n : Z) (ret : Batch C)
| EvTrainCritic (b : Batch C)
| EvTrainActor (b : Batch C)
| EvParamsToVector (ret : Vec C)
| EvEvaluate (n : Z) (ret : Q)
| EvPrintEval (num_timesteps : Z) (mean_reward : Q)
| EvPrintFPS
| EvReset (ret : Obs C)
| EvActionSample (ret : list Q)
| EvSelectAction (obs : Obs C) (ret : list Q)
| EvNormal (loc scale : Q) (size : Z) (ret : list Q)
| EvStep (action : list Q) (ret : Obs C * Q * bool)
| EvAdd (obs new_obs : Obs C) (action : list Q) (reward : Q) (done_bool : pyval)
| EvPrintEpisode (num_timesteps episode_num episode_timesteps : Z) (episode_reward : Q)
| EvTell (pop : list (Vec C)) (fitnesses : list Q)
| EvSave (path : string)
| EvLoad (path : string)
| EvCreateAliases.

(** The mutable part of the CEMRL object, with the collaborators' state and
    the log of calls. *)
Record Self : Type := mkSelf {
  world : World C;
  num_timesteps : Z;
  es_params : list (Vec C);
  fitnesses : list Q;
  trace : list Event
}.

Inductive result (A : Type) : Type :=
| Ok (a : A) (s : Self)
| Raise (e : exn) (s : Self)
| OutOfFuel.
Arguments Ok {A}.
Arguments Raise {A}.
Arguments OutOfFuel {A}.

Definition M (A : Type) : Type := Self -> result A.

Definition ret {A} (a : A) : M A := fun s => Ok a s.

Definition bind {A B} (c : M A) (k : A -> M B) : M B :=
  fun s =>
    match c s with
    | Ok a s' => k a s'
    | Raise e s' => Raise e s'
    | OutOfFuel => OutOfFuel
    end.

Definition raise {A} (e : exn) : M A := fun s => Raise e s.

Definition timeout {A} : M A := fun _ => OutOfFuel.

Notation "'let*' x ':=' c 'in' k" := (bind c (fun x => k))
  (at level 10, x name, c at level 100, k at level 200).
Notation "'let*' ' p ':=' c 'in' k" := (bind c (fun x => match x with p => k end))
  (at level 10, p pattern, c at level 100, k at level 200).
Notation "c ';;' k" := (bind c (fun _ => k))
  (at level 100, k at level 200, right associativity).

Definition set_world (w : World C) (s : Self) : Self :=
  mkSelf w (num_timesteps s) (es_params s) (fitnesses s) (trace s).

Definition log (e : Event) (s : Self) : Self :=
  mkSelf (world s) (num_timesteps s) (es_params s) (fitnesses s) (trace s ++ [e]).

(** A collaborator call that returns a value. *)
Definition call {A} (f : World C -> A * World C) (ev : A -> Event) : M A :=
  fun s => let '(a, w) := f (world s) in Ok a (log (ev a) (set_world w s)).

(** A collaborator call made for its effect. *)
Definition call_ (f : World C -> World C) (ev : Event) : M unit :=
  fun s => Ok tt (log ev (set_world (f (world s)) s)).

(** A collaborator call that reads. *)
Definition query {A} (f : World C -> A) (ev : A -> Event) : M A :=
  fun s => Ok (f (world s)) (log (ev (f (world s))) s).

Definition emit (e : Event) : M unit := fun s => Ok tt (log e s).

Definition get_num_timesteps : M Z := fun s => Ok (num_timesteps s) s.

Definition get_es_params : M (list (Vec C)) := fun s => Ok (es_params s) s.

Fixpoint for_each {A} (xs : list A) (body : A -> M unit) : M unit :=
  match xs with
  | [] => ret tt
  | x :: xs' => body x;; for_each xs' body
  end.

(** [a // b] and [a % b] on integers. *)
Definition py_floordiv (a b : Z) : M Z :=
  if b =? 0 then raise ZeroDivisionError else ret (a / b).

Definition py_mod (a b : Z) : M Z :=
  if b =? 0 then raise ZeroDivisionError else ret (a mod b).

(** [self.es_params[i]] for an index [i] taken from a range. *)
Definition es_params_get (i : Z) : M (Vec C) :=
  fun s =>
    match es_params s !! Z.to_nat i with
    | Some v => Ok v s
    | None => Raise IndexError s
    end.

(** [self.es_params[i] = v] *)
Definition es_params_set (i : Z) (v : Vec C) : M unit :=
  fun s =>
    if (Z.to_nat i <? length (es_params s))%nat
    then Ok tt (mkSelf (world s) (num_timesteps s) (<[Z.to_nat i := v]> (es_params s))
                       (fitnesses s) (trace s))
    else Raise IndexError s.

Section Learn.

Variable h : Hyper.

(** *** Gradient phase (lines 73-102) *)

(** Body of [for it in range(2 * (actor_steps // self.n_grad))]. *)
Definition train_iteration (it : Z) : M unit :=
  let* replay_data := call (replay_sample C (batch_size h)) (EvSample (batch_size h)) in
  call_ (train_critic C replay_data) (EvTrainCritic replay_data);;
  let* r := py_mod it (policy_freq h) in
  if r =? 0
  then call_ (train_actor C replay_data) (EvTrainActor replay_data)
  else ret tt.

(** Body of [for i in range(self.n_grad)]. *)
Definition gradient_member (actor_steps : Z) (i : Z) : M unit :=
  let* v := es_params_get i in
  call_ (actor_load_from_vector C v) (EvLoadActor v);;
  let* v' := es_params_get i in
  call_ (actor_target_load_from_vector C v') (EvLoadTarget v');;
  call_ (new_adam C (learning_rate h)) (EvNewAdam (learning_rate h));;
  let* q := py_floordiv actor_steps (n_grad h) in
  for_each (py_range (2 * q)) train_iteration;;
  let* p := query (parameters_to_vector C) EvParamsToVector in
  es_params_set i p.

Definition gradient_phase (actor_steps : Z) : M unit :=
  for_each (py_range (n_grad h)) (gradient_member actor_steps).

(** *** Periodic evaluation (lines 105-116) *)

(** [self.actor.load_from_vector(self.es.mu)] *)
Definition load_mu : M unit :=
  fun s =>
    let mu := es_mu C (world s) in
    call_ (actor_load_from_vector C mu) (EvLoadActor mu) s.

Definition print_eval (mean_reward : Q) : M unit :=
  if 0 <? verbose h
  then (let* nt := get_num_timesteps in
        emit (EvPrintEval nt mean_reward);; emit EvPrintFPS)
  else ret tt.

Definition eval_phase (eval_freq n_eval_episodes timesteps_since_eval : Z)
    (evaluations : list Q) : M (Z * list Q) :=
  if (0 <? eval_freq) && (eval_freq <=? timesteps_since_eval)
  then
    let* timesteps_since_eval := py_mod timesteps_since_eval eval_freq in
    load_mu;;
    let* mean_reward := call (evaluate_policy C n_eval_episodes) (EvEvaluate n_eval_episodes) in
    print_eval mean_reward;;
    ret (timesteps_since_eval, evaluations ++ [mean_reward])
  else ret (timesteps_since_eval, evaluations).

(** *** Rollout phase (lines 118-167) *)

(** [a + b] on one-dimensional arrays, with numpy's broadcasting; [None]
    when the shapes cannot be broadcast together. *)
Definition broadcast_add (a b : list Q) : option (list Q) :=
  if (length a =? length b)%nat then Some (zip_with Qplus a b)
  else match a, b with
       | [x], _ => Some (map (Qplus x) b)
       | _, [y] => Some (map (fun x => Qplus x y) a)
       | _, _ => None
       end.

Definition np_add (a b : list Q) : M (list Q) :=
  match broadcast_add a b with
  | Some r => ret r
  | None => raise ValueError
  end.

(** [x.clip(lo, hi)] on one component: [minimum(maximum(x, lo), hi)]. *)
Definition clip (lo hi x : Q) : Q := Qmin (Qmax x lo) hi.

(** Lines 133-136. *)
Definition choose_action (obs : Obs C) : M (list Q) :=
  let* nt := get_num_timesteps in
  if nt <? start_timesteps h
  then call (action_space_sample C) EvActionSample
  else call (select_action C obs) (EvSelectAction obs).

(** Lines 138-141. *)
Definition perturb (action : list Q) : M (list Q) :=
  if negb (Qle_bool (action_noise_std h) 0)
  then
    let* action_noise :=
      call (random_normal C 0 (action_noise_std h) (action_space_shape0 C))
           (EvNormal 0 (action_noise_std h) (action_space_shape0 C)) in
    let* noisy := np_add action action_noise in
    ret (map (clip (-1) 1) noisy)
  else ret action.

(** Lines 146-149. *)
Definition done_flag (attr : option pyval) (episode_timesteps : Z) (done : bool) : pyval :=
  match attr with
  | Some m => if py_int_eq (episode_timesteps + 1) m then PyInt 0 else py_float done
  | None => py_float done
  end.

Definition compute_done_bool (episode_timesteps : Z) (done : bool) : M pyval :=
  fun s => Ok (done_flag (env_max_episode_steps C (world s)) episode_timesteps done) s.

Definition incr_num_timesteps : M unit :=
  fun s => Ok tt (mkSelf (world s) (num_timesteps s + 1) (es_params s) (fitnesses s) (trace s)).

(** Body of [while not done] (lines 132-160). *)
Definition rollout_step (obs : Obs C) (episode_reward : Q) (episode_timesteps : Z)
    : M (Obs C * Q * Z * bool) :=
  let* action := choose_action obs in
  let* action := perturb action in
  let scaled := map (Qmult (max_action C)) action in
  let* '(new_obs, reward, done) := call (env_step C scaled) (EvStep scaled) in
  let* done_bool := compute_done_bool episode_timesteps done in
  let episode_reward := (episode_reward + reward)%Q in
  call_ (replay_add C obs new_obs action reward done_bool)
        (EvAdd obs new_obs action reward done_bool);;
  incr_num_timesteps;;
  ret (new_obs, episode_reward, episode_timesteps + 1, done).

(** [while not done], entered with [done = False]. *)
Fixpoint episode_loop (fuel : nat) (obs : Obs C) (episode_reward : Q) (episode_timesteps : Z)
    : M (Q * Z) :=
  match fuel with
  | O => timeout
  | S fuel' =>
      let* '(new_obs, episode_reward, episode_timesteps, done) :=
        rollout_step obs episode_reward episode_timesteps in
      if done : bool then ret (episode_reward, episode_timesteps)
      else episode_loop fuel' new_obs episode_reward episode_timesteps
  end.

Definition append_fitness (r : Q) : M unit :=
  fun s => Ok tt (mkSelf (world s) (num_timesteps s) (es_params s) (fitnesses s ++ [r]) (trace s)).

Definition print_episode (episode_num episode_timesteps : Z) (episode_reward : Q) : M unit :=
  if 1 <? verbose h
  then (let* nt := get_num_timesteps in
        emit (EvPrintEpisode nt episode_num episode_timesteps episode_reward))
  else ret tt.

(** Lines 124-167 of the body of [for params in self.es_params]: one episode
    with the candidate that is loaded; returns the updated [actor_steps] and
    [episode_num]. *)
Definition run_episode (fuel : nat) (actor_steps episode_num : Z) : M (Z * Z) :=
  let* obs := call (env_reset C) EvReset in
  let episode_num := episode_num + 1 in
  let* '(episode_reward, episode_timesteps) := episode_loop fuel obs 0%Q 0 in
  print_episode episode_num episode_timesteps episode_reward;;
  append_fitness episode_reward;;
  ret (actor_steps + episode_timesteps, episode_num).

(** Body of [for params in self.es_params] (lines 122-167). *)
Definition rollout_candidate (fuel : nat) (actor_steps episode_num : Z) (params : Vec C)
    : M (Z * Z) :=
  call_ (actor_load_from_vector C params) (EvLoadActor params);;
  run_episode fuel actor_steps episode_num.

Fixpoint rollout_loop (fuel : nat) (pop : list (Vec C)) (actor_steps episode_num : Z)
    : M (Z * Z) :=
  match pop with
  | [] => ret (actor_steps, episode_num)
  | params :: pop' =>
      let* '(actor_steps, episode_num) := rollout_candidate fuel actor_steps episode_num params in
      rollout_loop fuel pop' actor_steps episode_num
  end.

(** Lines 118-167: [actor_steps = 0], then one episode per candidate. *)
Definition rollout_phase (fuel : nat) (episode_num : Z) : M (Z * Z) :=
  let* pop := get_es_params in
  rollout_loop fuel pop 0 episode_num.

(** *** One generation and the outer loop (lines 57-173) *)

(** Lines 65-66. *)
Definition ask_phase : M unit :=
  fun s =>
    let '(pop, w) := es_ask C (pop_size h) (world s) in
    Ok tt (log (EvAsk (pop_size h) pop) (mkSelf w (num_timesteps s) pop [] (trace s))).

Definition Callback : Type :=
  Locals -> Z -> list (Vec C) -> World C -> pyval * World C.

(** Lines 68-71; returns [true] when the loop is to be left. *)
Definition callback_phase (callback : option Callback) (l : Locals) : M bool :=
  match callback with
  | None => ret false
  | Some f =>
      fun s =>
        let '(v, w) := f l (num_timesteps s) (es_params s) (world s) in
        Ok (is_False v) (log (EvCallback v) (set_world w s))
  end.

(** Line 73. *)
Definition maybe_gradient_phase (actor_steps : Z) : M unit :=
  let* nt := get_num_timesteps in
  if 0 <? nt then gradient_phase actor_steps else ret tt.

(** Line 169. *)
Definition tell_phase : M unit :=
  fun s => call_ (es_tell C (es_params s) (fitnesses s)) (EvTell (es_params s) (fitnesses s)) s.

(** Lines 73-172: what a generation does once the callback let it go on. *)
Definition generation_body (fuel : nat) (eval_freq n_eval_episodes : Z) (l : Locals)
    : M Locals :=
  maybe_gradient_phase (actor_steps l);;
  let* '(timesteps_since_eval, evaluations) :=
    eval_phase eval_freq n_eval_episodes (timesteps_since_eval l) (evaluations l) in
  let* '(actor_steps, episode_num) := rollout_phase fuel (episode_num l) in
  tell_phase;;
  ret (mkLocals (timesteps_since_eval + actor_steps) actor_steps episode_num evaluations).

Definition generation (fuel : nat) (callback : option Callback)
    (eval_freq n_eval_episodes : Z) (l : Locals) : M signal :=
  ask_phase;;
  let* stop := callback_phase callback l in
  if stop : bool then ret Break
  else (let* l' := generation_body fuel eval_freq n_eval_episodes l in ret (Continue l')).

(** [while self.num_timesteps < total_timesteps] *)
Fixpoint learn_loop (fuel : nat) (total_timesteps : Z) (callback : option Callback)
    (eval_freq n_eval_episodes : Z) (l : Locals) : M Locals :=
  match fuel with
  | O => timeout
  | S fuel' =>
      let* nt := get_num_timesteps in
      if nt <? total_timesteps
      then
        let* sig := generation fuel' callback eval_freq n_eval_episodes l in
        match sig with
        | Break => ret l
        | Continue l' => learn_loop fuel' total_timesteps callback eval_freq n_eval_episodes l'
        end
      else ret l
  end.

Definition learn (fuel : nat) (total_timesteps : Z) (callback : option Callback)
    (eval_freq n_eval_episodes : Z) : M Locals :=
  learn_loop fuel total_timesteps callback eval_freq n_eval_episodes (mkLocals 0 0 0 []).

End Learn.

(** *** Construction (lines 21-52) *)

(** [_setup_model]: the base class builds the networks, then the strategy is
    created around the actor's flattened parameters. *)
Definition _setup_model (h : Hyper) (w : World C) : exn + World C :=
  match td3_setup_model C w with
  | None => inl CollaboratorError
  | Some w1 =>
      let params_vector := parameters_to_vector C w1 in
      let args :=
        mkCEMArgs (vec_len C params_vector) params_vector (sigma_init h) (damp h)
                  (damp_limit h) (pop_size h) (negb (truthy (PyInt (pop_size h mod 2))))
                  (pop_size h / 2) (elitism h) in
      match cem_new C args w1 with
      | None => inl CollaboratorError
      | Some w2 => inr w2
      end
  end.

(** [__init__]: the arguments are the fields of [h]; [w0] stands for the
    policy class and the environment handed in.  The base class starts
    [num_timesteps] at 0. *)
Definition init (h : Hyper) (_init_setup_model : bool) (w0 : World C) : exn + Hyper * Self :=
  let base :=
    mkTD3Args (verbose h) (buffer_size h) (learning_rate h) (seed h) (action_noise_std h)
              (start_timesteps h) (policy_freq h) (batch_size h) in
  match td3_init C base w0 with
  | None => inl CollaboratorError
  | Some w1 =>
      if _init_setup_model
      then match _setup_model h w1 with
           | inl e => inl e
           | inr w2 => inr (h, mkSelf w2 0 [] [] [])
           end
      else inr (h, mkSelf w1 0 [] [] [])
  end.

(** *** Persistence (lines 175-186) *)

Definition save (path : string) : M unit :=
  let path := if negb (endswith path ".pth") then (path ++ ".pth")%string else path in
  call_ (th_save C path) (EvSave path).

Definition load (path : string) (env : option unit) : M unit :=
  let path := if negb (endswith path ".pth") then (path ++ ".pth")%string else path in
  (match env with Some _ => ret tt | None => ret tt end);;
  call_ (th_load C path) (EvLoad path);;
  call_ (create_aliases C) EvCreateAliases.

End CEMRL.

Arguments EvAsk {C}.
Arguments EvCallback {C}.
Arguments EvLoadActor {C}.
Arguments EvLoadTarget {C}.
Arguments EvNewAdam {C}.
Arguments EvSample {C}.
Arguments EvTrainCritic {C}.
Arguments EvTrainActor {C}.
Arguments EvParamsToVector {C}.
Arguments EvEvaluate {C}.
Arguments EvPrintEval {C}.
Arguments EvPrintFPS {C}.
Arguments EvReset {C}.
Arguments EvActionSample {C}.
Arguments EvSelectAction {C}.
Arguments EvNormal {C}.
Arguments EvStep {C}.
Arguments EvAdd {C}.
Arguments EvPrintEpisode {C}.
Arguments EvTell {C}.
Arguments EvSave {C}.
Arguments EvLoad {C}.
Arguments EvCreateAliases {C}.
Arguments mkSelf {C}.
Arguments world {C}.
Arguments num_timesteps {C}.
Arguments es_params {C}.
Arguments fitnesses {C}.
Arguments trace {C}.
Arguments Ok {C A}.
Arguments Raise {C A}.
Arguments OutOfFuel {C A}.
Arguments ret {C A}.
Arguments bind {C A B}.
Arguments raise {C A}.
Arguments timeout {C A}.
Arguments set_world {C}.
Arguments log {C}.
Arguments call {C A}.
Arguments call_ {C}.
Arguments query {C A}.
Arguments emit {C}.
Arguments get_num_timesteps {C}.
Arguments get_es_params {C}.
Arguments for_each {C A}.
Arguments py_floordiv {C}.
Arguments py_mod {C}.
Arguments es_params_get {C}.
Arguments es_params_set {C}.
Arguments train_iteration {C}.
Arguments gradient_member {C}.
Arguments gradient_phase {C}.
Arguments load_mu {C}.
Arguments print_eval {C}.
Arguments eval_phase {C}.
Arguments np_add {C}.
Arguments choose_action {C}.
Arguments perturb {C}.
Arguments compute_done_bool {C}.
Arguments incr_num_timesteps {C}.
Arguments rollout_step {C}.
Arguments episode_loop {C}.
Arguments append_fitness {C}.
Arguments print_episode {C}.
Arguments run_episode {C}.
Arguments rollout_candidate {C}.
Arguments rollout_loop {C}.
Arguments rollout_phase {C}.
Arguments ask_phase {C}.
Arguments callback_phase {C}.
Arguments maybe_gradient_phase {C}.
Arguments tell_phase {C}.
Arguments generation_body {C}.
Arguments generation {C}.
Arguments learn_loop {C}.
Arguments learn {C}.
Arguments _setup_model {C}.
Arguments init {C}.
Arguments save {C}.
Arguments load {C}.

(** ** A small concrete instance

    A deterministic world used to run the code on explicit inputs: every
    episode lasts two steps, the strategy proposes the vectors 10, 20, ...,
    an actor update adds one to the actor's single parameter. *)

Module Toy.

Record W : Type := mkW { ep_steps : Z; cb_calls : Z; actor : Z }.

Definition collab : Collab := {|
  World := W;
  Vec := Z;
  Obs := Z;
  Batch := Z;
  td3_init := fun _ w => Some w;
  td3_setup_model := fun w => Some w;
  max_action := 2%Q;
  select_action := fun _ w => ([(1 # 2)%Q], w);
  train_critic := fun _ w => w;
  train_actor := fun _ w => mkW (ep_steps w) (cb_calls w) (actor w + 1);
  parameters_to_vector := actor;
  vec_len := fun _ => 1;
  actor_load_from_vector := fun v w => mkW (ep_steps w) (cb_calls w) v;
  actor_target_load_from_vector := fun _ w => w;
  new_adam := fun _ w => w;
  cem_new := fun _ w => Some w;
  es_ask := fun n w => (map (fun k => 10 * (Z.of_nat k + 1)) (seq 0 (Z.to_nat n)), w);
  es_tell := fun _ _ w => w;
  es_mu := fun _ => 0;
  replay_sample := fun n w => (n, w);
  replay_add := fun _ _ _ _ _ w => w;
  env_reset := fun w => (0, mkW 0 (cb_calls w) (actor w));
  env_step := fun _ w =>
    let k := ep_steps w + 1 in ((k, 1%Q, 2 <=? k), mkW k (cb_calls w) (actor w));
  env_max_episode_steps := fun _ => Some (PyInt 2);
  action_space_sample := fun w => ([3%Q], w);
  action_space_shape0 := 1;
  random_normal := fun _ _ n w => (repeat (1 # 4)%Q (Z.to_nat n), w);
  evaluate_policy := fun _ w => (0%Q, w);
  th_save := fun _ w => w;
  th_load := fun _ w => w;
  create_aliases := fun w => w
|}.

(** The defaults of [__init__], with a population of two and configurable
    [n_grad] and [action_noise_std]. *)
Definition hyper (n_grad : Z) (noise : Q) : Hyper := {|
  verbose := 0;
  sigma_init := (1 # 1000)%Q;
  pop_size := 2;
  damp := (1 # 1000)%Q;
  damp_limit := (1 # 100000)%Q;
  elitism := false;
  n_grad := n_grad;
  policy_freq := 2;
  batch_size := 100;
  buffer_size := 1000000;
  learning_rate := (1 # 1000)%Q;
  seed := 0;
  action_noise_std := noise;
  start_timesteps := 100
|}.

Definition w0 : W := mkW 0 0 0.

Definition self0 : Self collab := @mkSelf collab w0 0 [] [] [].

(** A callback that returns [None] twice and [False] on its third call. *)
Definition stop_on_third : Callback collab :=
  fun _ _ _ w =>
    (if cb_calls w =? 2 then PyBool false else PyNone,
     mkW (ep_steps w) (cb_calls w + 1) (actor w)).

(** A callback that returns the falsy values [None], [0] and the empty
    string, never [False]. *)
Definition falsy_forever : Callback collab :=
  fun _ _ _ w =>
    (if cb_calls w =? 0 then PyNone else if cb_calls w =? 1 then PyInt 0 else PyStr EmptyString,
     mkW (ep_steps w) (cb_calls w + 1) (actor w)).

(** Results of running the code on the toy instance, computed once: a run
    of [learn] with a budget of 6 steps, its first generation, the episode
    of the first candidate and the first step. *)
Definition run6 : result collab Locals := Eval vm_compute in
  learn (C := collab) (hyper 1 0) 10 6 None (-1) 5 self0.

Definition run6_locals : Locals := Eval vm_compute in
  match run6 with Ok l _ => l | _ => mkLocals 0 0 0 [] end.

Definition run6_state : Self collab := Eval vm_compute in
  match run6 with Ok _ s => s | _ => self0 end.

Definition gen1_locals : Locals := Eval vm_compute in
  match generation (C := collab) (hyper 1 0) 9 None (-1) 5 (mkLocals 0 0 0 []) self0 with
  | Ok (Continue l) _ => l
  | _ => mkLocals 0 0 0 []
  end.

Definition gen1_state : Self collab := Eval vm_compute in
  match generation (C := collab) (hyper 1 0) 9 None (-1) 5 (mkLocals 0 0 0 []) self0 with
  | Ok _ s => s
  | _ => self0
  end.

Definition episode1_state : Self collab := Eval vm_compute in
  match rollout_candidate (C := collab) (hyper 1 0) 5 0 0 10 self0 with
  | Ok _ s => s
  | _ => self0
  end.

Definition step1_result : Z * Q * Z * bool := Eval vm_compute in
  match rollout_step (C := collab) (hyper 1 0) 0 0%Q 0 self0 with
  | Ok r _ => r
  | _ => (0, 0%Q, 0, false)
  end.

Definition step1_state : Self collab := Eval vm_compute in
  match rollout_step (C := collab) (hyper 1 0) 0 0%Q 0 self0 with
  | Ok _ s => s
  | _ => self0
  end.

Definition trained_state : Self collab := Eval vm_compute in
  match gradient_phase (C := collab) (hyper 1 0) 4 (@mkSelf collab w0 4 [10; 20] [] []) with
  | Ok _ s => s
  | _ => self0
  end.

End Toy.

(** ** Observations on states and logs

    What the statements below say about a run is read from the log and the
    fields of the object with these definitions. *)

Section Observations.

Context {C : Collab}.
Variable h : Hyper.

(** A relation between the state before and after, kept by every step of a
    computation that returns normally. *)
Definition respects (R : Self C -> Self C -> Prop) {A} (c : M C A) : Prop :=
  forall s a s', c s = Ok a s' -> R s s'.

(** [evolves P kp kn s s']: from [s] to [s'] the log grew by events that all
    satisfy [P] and the population kept its size; the population is the same
    when [kp] is set, and [num_timesteps] is the same when [kn] is set. *)
Definition evolves (P : Event C -> bool) (kp kn : bool) (s s' : Self C) : Prop :=
  (exists new, trace s' = trace s ++ new /\ forallb P new = true) /\
  (kp = true -> es_params s' = es_params s) /\
  (kn = true -> num_timesteps s' = num_timesteps s) /\
  length (es_params s') = length (es_params s).

(** Calls made by the gradient phase and by no other phase. *)
Definition gradient_only (e : Event C) : bool :=
  match e with
  | EvLoadTarget _ | EvNewAdam _ | EvSample _ _ | EvTrainCritic _
  | EvTrainActor _ | EvParamsToVector _ => true
  | _ => false
  end.

Definition gradient_event (e : Event C) : bool :=
  match e with
  | EvLoadActor _ => true
  | _ => gradient_only e
  end.

Definition eval_event (e : Event C) : bool :=
  match e with
  | EvLoadActor _ | EvEvaluate _ _ | EvPrintEval _ _ | EvPrintFPS => true
  | _ => false
  end.

(** Calls made inside [while not done]. *)
Definition episode_event (e : Event C) : bool :=
  match e with
  | EvActionSample _ | EvSelectAction _ _ | EvNormal _ _ _ _ | EvStep _ _
  | EvAdd _ _ _ _ _ => true
  | _ => false
  end.

(** Calls made to select the action of a step. *)
Definition selection_event (e : Event C) : bool :=
  match e with
  | EvActionSample _ | EvSelectAction _ _ | EvNormal _ _ _ _ => true
  | _ => false
  end.

Definition rollout_event (e : Event C) : bool :=
  match e with
  | EvLoadActor _ | EvReset _ | EvPrintEpisode _ _ _ _ => true
  | _ => episode_event e
  end.

Definition is_env_step (e : Event C) : bool :=
  match e with
  | EvStep _ _ => true
  | _ => false
  end.

Definition is_callback (e : Event C) : bool :=
  match e with
  | EvCallback _ => true
  | _ => false
  end.

Definition is_tell (e : Event C) : bool :=
  match e with
  | EvTell _ _ => true
  | _ => false
  end.

(** Calls made by an episode once the candidate is loaded. *)
Definition run_event (e : Event C) : bool :=
  match e with
  | EvReset _ | EvPrintEpisode _ _ _ _ => true
  | _ => episode_event e
  end.

(** What iteration [it] of the inner loop logs when its sampled batch is [b]. *)
Definition iteration_events (it : Z) (b : Batch C) : list (Event C) :=
  [EvSample (batch_size h) b; EvTrainCritic b] ++
  (if it mod policy_freq h =? 0 then [EvTrainActor b] else []).

(** The log of consecutive iterations [start], [start + 1], ... whose sampled
    batches are [bs]. *)
Fixpoint iterations_events (start : Z) (bs : list (Batch C)) : list (Event C) :=
  match bs with
  | [] => []
  | b :: bs' => iteration_events start b ++ iterations_events (start + 1) bs'
  end.

(** The vectors returned by the [parameters_to_vector] calls of a log. *)
Fixpoint params_returned (t : list (Event C)) : list (Vec C) :=
  match t with
  | [] => []
  | EvParamsToVector v :: t' => v :: params_returned t'
  | _ :: t' => params_returned t'
  end.

(** The vectors loaded into the actor by a log. *)
Fixpoint actor_loads (t : list (Event C)) : list (Vec C) :=
  match t with
  | [] => []
  | EvLoadActor v :: t' => v :: actor_loads t'
  | _ :: t' => actor_loads t'
  end.

(** Same state but for the collaborators' world and the log. *)
Definition same_fields (s s' : Self C) : Prop :=
  num_timesteps s' = num_timesteps s /\ es_params s' = es_params s /\
  fitnesses s' = fitnesses s.

(** Number of [env.step] calls in a log. *)
Fixpoint env_steps (t : list (Event C)) : Z :=
  match t with
  | [] => 0
  | EvStep _ _ :: t' => 1 + env_steps t'
  | _ :: t' => env_steps t'
  end.

(** [num_timesteps] grew by the number of [env.step] calls logged. *)
Definition accounted (s s' : Self C) : Prop :=
  exists new, trace s' = trace s ++ new /\
    num_timesteps s' = num_timesteps s + env_steps new.

Definition not_env_step (e : Event C) : bool := negb (is_env_step e).

(** The done flags handed to [replay_buffer.add], in order. *)
Fixpoint stored_flags (t : list (Event C)) : list pyval :=
  match t with
  | [] => []
  | EvAdd _ _ _ _ flag :: t' => flag :: stored_flags t'
  | _ :: t' => stored_flags t'
  end.

(** The raw done signals returned by [env.step], in order. *)
Fixpoint raw_dones (t : list (Event C)) : list bool :=
  match t with
  | [] => []
  | EvStep _ (_, _, done) :: t' => done :: raw_dones t'
  | _ :: t' => raw_dones t'
  end.

(** The flags of consecutive steps of one episode, the first of them being
    made with [episode_timesteps = t]. *)
Fixpoint flags_from (attr : option pyval) (t : Z) (dones : list bool) : list pyval :=
  match dones with
  | [] => []
  | d :: dones' => done_flag attr t d :: flags_from attr (t + 1) dones'
  end.

(** The state in which the ask phase leaves the object. *)
Definition after_ask (s : Self C) : Self C :=
  mkSelf (snd (es_ask C (pop_size h) (world s))) (num_timesteps s)
         (fst (es_ask C (pop_size h) (world s))) []
         (trace s ++ [EvAsk (pop_size h) (fst (es_ask C (pop_size h) (world s)))]).

(** What the callback returns when called at the start of a generation, and
    the state in which that call leaves the object. *)
Definition callback_value (f : Callback C) (l : Locals) (s : Self C) : pyval :=
  fst (f l (num_timesteps s) (es_params (after_ask s)) (world (after_ask s))).

Definition after_callback (f : Callback C) (l : Locals) (s : Self C) : Self C :=
  mkSelf (snd (f l (num_timesteps s) (es_params (after_ask s)) (world (after_ask s))))
         (num_timesteps s) (es_params (after_ask s)) []
         (trace s ++ [EvAsk (pop_size h) (es_params (after_ask s));
                      EvCallback (callback_value f l s)]).

(** The state from which the body of a generation runs. *)
Definition body_start (cb : option (Callback C)) (l : Locals) (s : Self C) : Self C :=
  match cb with
  | Some f => after_callback f l s
  | None => after_ask s
  end.

(** [generations h cb ef ne k l0 s0 l s]: starting from the locals [l0] and
    the state [s0], [k] generations in a row ran to their end and left the
    locals [l] and the state [s]. *)
Inductive generations {C : Collab} (h : Hyper) (cb : option (Callback C)) (ef ne : Z)
    : nat -> Locals -> Self C -> Locals -> Self C -> Prop :=
| generations_O l s : generations h cb ef ne 0 l s l s
| generations_S k l0 s0 l1 s1 l2 s2 fuel :
    generations h cb ef ne k l0 s0 l1 s1 ->
    generation h fuel cb ef ne l1 s1 = Ok (Continue l2) s2 ->
    generations h cb ef ne (S k) l0 s0 l2 s2.

(** The rewards returned by [env.step], in order. *)
Fixpoint rewards (t : list (Event C)) : list Q :=
  match t with
  | [] => []
  | EvStep _ (_, reward, _) :: t' => reward :: rewards t'
  | _ :: t' => rewards t'
  end.

(** Number of [replay_buffer.add] calls in a log. *)
Fixpoint replay_adds (t : list (Event C)) : Z :=
  match t with
  | [] => 0
  | EvAdd _ _ _ _ _ :: t' => 1 + replay_adds t'
  | _ :: t' => replay_adds t'
  end.

Definition is_select_action (e : Event C) : bool :=
  match e with
  | EvSelectAction _ _ => true
  | _ => false
  end.

Definition is_evaluate (e : Event C) : bool :=
  match e with
  | EvEvaluate _ _ => true
  | _ => false
  end.

(** Calls made outside the body of [while not done]. *)
Definition outside_episode (e : Event C) : bool := negb (episode_event e).

(** [quiet s s']: from [s] to [s'] no call of the body of [while not done]
    was logged and [num_timesteps] is the same. *)
Definition quiet (s s' : Self C) : Prop :=
  num_timesteps s' = num_timesteps s /\
  exists new, trace s' = trace s ++ new /\ forallb outside_episode new = true.

(** Every environment step is counted once in [num_timesteps] and stored
    once in the replay buffer. *)
Definition stored_once (s s' : Self C) : Prop :=
  exists new, trace s' = trace s ++ new /\
    num_timesteps s' = num_timesteps s + env_steps new /\
    replay_adds new = env_steps new /\ 0 <= env_steps new.

(** [num_timesteps] does not decrease, and as long as it has not passed
    [start_timesteps] the policy was not asked for an action. *)
Definition warm_up (s s' : Self C) : Prop :=
  num_timesteps s <= num_timesteps s' /\
  exists new, trace s' = trace s ++ new /\
    (num_timesteps s' <= start_timesteps h -> existsb is_select_action new = false).

(** No [evaluate_policy] call was logged. *)
Definition never_evaluates (s s' : Self C) : Prop :=
  exists new, trace s' = trace s ++ new /\ existsb is_evaluate new = false.

Definition keeps_fitnesses (s s' : Self C) : Prop := fitnesses s' = fitnesses s.

Definition not_evaluate (e : Event C) : bool := negb (is_evaluate e).

(** What the gradient phase logs for one member: the candidate [v] is loaded
    into the actor and the target, the optimizer is created anew, the inner
    loop runs on the sampled batches [bs], and the parameters [p] are read
    back. *)
Definition member_events (m : Vec C * list (Batch C) * Vec C) : list (Event C) :=
  let '(v, bs, p) := m in
  [EvLoadActor v; EvLoadTarget v; EvNewAdam (learning_rate h)] ++
  iterations_events 0 bs ++ [EvParamsToVector p].

Fixpoint members_events (ms : list (Vec C * list (Batch C) * Vec C)) : list (Event C) :=
  match ms with
  | [] => []
  | m :: ms' => member_events m ++ members_events ms'
  end.

(** The computation returns or raises, and raises only exceptions in [E]. *)
Definition raises_only {A} (E : exn -> Prop) (c : M C A) : Prop :=
  forall s, match c s with
            | Ok _ _ => True
            | Raise e _ => E e
            | OutOfFuel => False
            end.

(** The exceptions of the gradient phase. *)
Definition gradient_exn (e : exn) : Prop :=
  e = IndexError \/ (e = ZeroDivisionError /\ policy_freq h = 0).

End Observations.

(** ** Reasoning principles for the monad *)

Section Monad.

Context {C : Collab}.

Lemma bind_Ok {A B} (c : M C A) (k : A -> M C B) s a s1 :
  c s = Ok a s1 -> bind c k s = k a s1.
Proof. unfold bind. intros ->. reflexivity. Qed.

Lemma bind_Raise {A B} (c : M C A) (k : A -> M C B) s e s1 :
  c s = Raise e s1 -> bind c k s = Raise e s1.
Proof. unfold bind. intros ->. reflexivity. Qed.

Lemma bind_Ok_inv {A B} (c : M C A) (k : A -> M C B) s b s2 :
  bind c k s = Ok b s2 -> exists a s1, c s = Ok a s1 /\ k a s1 = Ok b s2.
Proof.
  unfold bind. destruct (c s) as [a s1| |]; intros H; try discriminate.
  exists a, s1. split; [reflexivity|exact H].
Qed.

Lemma for_each_app {A} (xs ys : list A) (body : A -> M C unit) s :
  for_each (xs ++ ys) body s = bind (for_each xs body) (fun _ => for_each ys body) s.
Proof.
  revert s. induction xs as [|x xs IH]; intros s; simpl.
  - reflexivity.
  - unfold bind. destruct (body x s) as [[] s1| |]; try reflexivity.
    rewrite IH. reflexivity.
Qed.

Section Respects.

Variable R : Self C -> Self C -> Prop.
Hypothesis R_refl : forall s, R s s.
Hypothesis R_trans : forall s1 s2 s3, R s1 s2 -> R s2 s3 -> R s1 s3.

Lemma respects_ret {A} (a : A) : respects R (ret a).
Proof. intros s a' s' H. inversion H; subst. apply R_refl. Qed.

Lemma respects_raise {A} e : respects R (raise e : M C A).
Proof. intros s a s' H. discriminate. Qed.

Lemma respects_timeout {A} : respects R (timeout : M C A).
Proof. intros s a s' H. discriminate. Qed.

Lemma respects_bind {A B} (c : M C A) (k : A -> M C B) :
  respects R c -> (forall a, respects R (k a)) -> respects R (bind c k).
Proof.
  intros Hc Hk s b s' H. apply bind_Ok_inv in H as (a & s1 & H1 & H2).
  eapply R_trans; [eapply Hc; eassumption | eapply Hk; eassumption].
Qed.

Lemma respects_for_each {A} (xs : list A) (body : A -> M C unit) :
  (forall x, respects R (body x)) -> respects R (for_each xs body).
Proof.
  intros Hb. induction xs as [|x xs IH]; simpl.
  - apply respects_ret.
  - apply respects_bind; [apply Hb | intros _; exact IH].
Qed.

Lemma respects_pure {A} (c : M C A) :
  (forall s a s', c s = Ok a s' -> s' = s) -> respects R c.
Proof. intros Hc s a s' H. rewrite (Hc _ _ _ H). apply R_refl. Qed.

Lemma respects_py_mod a b : respects R (py_mod a b : M C Z).
Proof.
  apply respects_pure. unfold py_mod. intros s r s'.
  destruct (b =? 0); [discriminate|]. intros H; inversion H; reflexivity.
Qed.

Lemma respects_py_floordiv a b : respects R (py_floordiv a b : M C Z).
Proof.
  apply respects_pure. unfold py_floordiv. intros s r s'.
  destruct (b =? 0); [discriminate|]. intros H; inversion H; reflexivity.
Qed.

Lemma respects_get_num_timesteps : respects R (get_num_timesteps : M C Z).
Proof. apply respects_pure. intros s a s' H; inversion H; reflexivity. Qed.

Lemma respects_get_es_params : respects R (get_es_params : M C _).
Proof. apply respects_pure. intros s a s' H; inversion H; reflexivity. Qed.

Lemma respects_es_params_get i : respects R (es_params_get i : M C _).
Proof.
  apply respects_pure. unfold es_params_get. intros s a s'.
  destruct (es_params s !! Z.to_nat i); [|discriminate].
  intros H; inversion H; reflexivity.
Qed.

Lemma respects_compute_done_bool t d : respects R (compute_done_bool t d : M C _).
Proof. apply respects_pure. intros s a s' H; inversion H; reflexivity. Qed.

Lemma respects_np_add a b : respects R (np_add a b : M C _).
Proof.
  apply respects_pure. unfold np_add. intros s r s'.
  destruct (broadcast_add a b); [|discriminate].
  intros H; inversion H; reflexivity.
Qed.

End Respects.

End Monad.

(** ** Frame properties of the phases *)

Section Frames.

Context {C : Collab}.

Lemma evolves_refl (P : Event C -> bool) kp kn s : evolves P kp kn s s.
Proof.
  split; [|repeat split].
  exists []. rewrite app_nil_r. split; reflexivity.
Qed.

Lemma evolves_trans (P : Event C -> bool) kp kn s1 s2 s3 :
  evolves P kp kn s1 s2 -> evolves P kp kn s2 s3 -> evolves P kp kn s1 s3.
Proof.
  intros [(n1 & T1 & F1) (P1 & N1 & L1)] [(n2 & T2 & F2) (P2 & N2 & L2)].
  split; [|split; [|split]].
  - exists (n1 ++ n2). rewrite T2, T1, <- app_assoc. split; [reflexivity|].
    rewrite forallb_app, F1, F2. reflexivity.
  - intros H. rewrite (P2 H). apply P1, H.
  - intros H. rewrite (N2 H). apply N1, H.
  - congruence.
Qed.

Lemma evolves_weaken (P P' : Event C -> bool) kp kn kp' kn' s s' :
  (forall e, P e = true -> P' e = true) ->
  (kp' = true -> kp = true) -> (kn' = true -> kn = true) ->
  evolves P kp kn s s' -> evolves P' kp' kn' s s'.
Proof.
  intros HP Hp Hn [(new & T & F) (Hkp & Hkn & L)].
  split; [|split; [|split]]; [|tauto|tauto|exact L].
  exists new. split; [exact T|].
  rewrite forallb_forall in *. intros e He. apply HP, F, He.
Qed.

Lemma respects_weaken (R R' : Self C -> Self C -> Prop) {A} (c : M C A) :
  (forall s s', R s s' -> R' s s') -> respects R c -> respects R' c.
Proof. intros HR Hc s a s' H. apply HR. eapply Hc, H. Qed.

Section Primitives.

Variable P : Event C -> bool.
Variables kp kn : bool.

Let R := evolves P kp kn.

Lemma evolves_log e s w :
  P e = true -> R s (log e (set_world w s)).
Proof.
  intros He. split; [|repeat split].
  exists [e]. split; [reflexivity|]. simpl. rewrite He. reflexivity.
Qed.

Lemma respects_call {A} (f : World C -> A * World C) ev :
  (forall a, P (ev a) = true) -> respects R (call f ev).
Proof.
  intros He s a s'. unfold call. destruct (f (world s)) as [a' w].
  intros H; injection H as <- <-. apply evolves_log, He.
Qed.

Lemma respects_call_ (f : World C -> World C) ev :
  P ev = true -> respects R (call_ f ev).
Proof.
  intros He s a s'. unfold call_. intros H; injection H as <- <-.
  apply evolves_log, He.
Qed.

Lemma respects_query {A} (f : World C -> A) ev :
  (forall a, P (ev a) = true) -> respects R (query f ev).
Proof.
  intros He s a s'. unfold query. intros H; injection H as <- <-.
  destruct s as [w n p f' t].
  apply (evolves_log (ev (f w)) (mkSelf w n p f' t) w), He.
Qed.

Lemma respects_emit e : P e = true -> respects R (emit e).
Proof.
  intros He s a s'. unfold emit. intros H; injection H as <- <-.
  destruct s as [w n p f' t]. apply (evolves_log e (mkSelf w n p f' t) w), He.
Qed.

Lemma respects_append_fitness r : respects R (append_fitness r).
Proof.
  intros s a s' H. injection H as <- <-. split; [|repeat split].
  exists []. simpl. rewrite app_nil_r. split; reflexivity.
Qed.

Lemma respects_incr_num_timesteps : kn = false -> respects R incr_num_timesteps.
Proof.
  intros Hk s a s' H. injection H as <- <-. split; [|split; [|split]]; try reflexivity.
  - exists []. simpl. rewrite app_nil_r. split; reflexivity.
  - rewrite Hk. discriminate.
Qed.

Lemma respects_es_params_set i v : kp = false -> respects R (es_params_set i v).
Proof.
  intros Hk s a s'. unfold es_params_set.
  destruct (Z.to_nat i <? length (es_params s))%nat; [|discriminate].
  intros H; injection H as <- <-. split; [|split; [|split]]; try reflexivity.
  - exists []. simpl. rewrite app_nil_r. split; reflexivity.
  - rewrite Hk. discriminate.
  - simpl. apply length_insert.
Qed.

End Primitives.

End Frames.

(** ** Which events each phase logs *)

Ltac ev_bind := apply (respects_bind _ (evolves_trans _ _ _)); [|intros ?].
Ltac ev_ret := apply (respects_ret _ (evolves_refl _ _ _)).
Ltac ev_prim :=
  first
    [ ev_ret
    | apply (respects_raise _)
    | apply (respects_timeout _)
    | apply (respects_py_mod _ (evolves_refl _ _ _))
    | apply (respects_py_floordiv _ (evolves_refl _ _ _))
    | apply (respects_get_num_timesteps _ (evolves_refl _ _ _))
    | apply (respects_get_es_params _ (evolves_refl _ _ _))
    | apply (respects_es_params_get _ (evolves_refl _ _ _))
    | apply (respects_compute_done_bool _ (evolves_refl _ _ _))
    | apply (respects_np_add _ (evolves_refl _ _ _))
    | apply respects_call; intros; reflexivity
    | apply respects_call_; reflexivity
    | apply respects_query; intros; reflexivity
    | apply respects_emit; reflexivity
    | apply respects_append_fitness
    | apply respects_incr_num_timesteps; reflexivity
    | apply respects_es_params_set; reflexivity ].

Ltac no_step := let e := fresh in intros e; destruct e; simpl; congruence.

Section Phases.

Context {C : Collab}.
Variable h : Hyper.

Lemma train_iteration_evolves it :
  respects (C := C) (evolves gradient_event false true) (train_iteration h it).
Proof.
  unfold train_iteration. ev_bind; [ev_prim|]. ev_bind; [ev_prim|].
  ev_bind; [ev_prim|]. destruct (_ =? 0); ev_prim.
Qed.

Lemma gradient_member_evolves actor_steps i :
  respects (C := C) (evolves gradient_event false true) (gradient_member h actor_steps i).
Proof.
  unfold gradient_member. do 6 (ev_bind; [ev_prim|]).
  ev_bind; [|ev_bind; ev_prim].
  apply (respects_for_each _ (evolves_refl _ _ _) (evolves_trans _ _ _)).
  apply train_iteration_evolves.
Qed.

Lemma gradient_phase_evolves actor_steps :
  respects (C := C) (evolves gradient_event false true) (gradient_phase h actor_steps).
Proof.
  apply (respects_for_each _ (evolves_refl _ _ _) (evolves_trans _ _ _)).
  apply gradient_member_evolves.
Qed.

Lemma eval_phase_evolves ef ne tse evs :
  respects (C := C) (evolves eval_event true true) (eval_phase h ef ne tse evs).
Proof.
  unfold eval_phase. destruct (_ && _); [|ev_prim].
  ev_bind; [ev_prim|]. ev_bind.
  { intros s0 r0 s1. unfold load_mu. apply respects_call_. reflexivity. }
  ev_bind; [ev_prim|]. ev_bind; [|ev_prim].
  unfold print_eval. destruct (0 <? verbose h); [|ev_prim].
  ev_bind; [ev_prim|]. ev_bind; ev_prim.
Qed.

Lemma rollout_step_evolves obs r t :
  respects (C := C) (evolves episode_event true false) (rollout_step h obs r t).
Proof.
  unfold rollout_step. ev_bind.
  { unfold choose_action. ev_bind; [ev_prim|]. destruct (_ <? _); ev_prim. }
  ev_bind.
  { unfold perturb. destruct (negb _); [|ev_prim]. do 2 (ev_bind; [ev_prim|]). ev_prim. }
  apply (respects_bind _ (evolves_trans _ _ _)); [ev_prim|intros [[new_obs reward] done]].
  do 3 (ev_bind; [ev_prim|]). ev_prim.
Qed.

Lemma episode_loop_evolves fuel obs r t :
  respects (C := C) (evolves episode_event true false) (episode_loop h fuel obs r t).
Proof.
  revert obs r t. induction fuel as [|fuel IH]; intros obs r t; simpl; [ev_prim|].
  apply (respects_bind _ (evolves_trans _ _ _));
    [apply rollout_step_evolves|intros [[[new_obs r'] t'] done]]. destruct done; [ev_prim|apply IH].
Qed.

Lemma run_episode_evolves fuel a en :
  respects (C := C) (evolves run_event true false) (run_episode h fuel a en).
Proof.
  unfold run_episode. ev_bind; [ev_prim|].
  apply (respects_bind _ (evolves_trans _ _ _)); [|intros [er et]].
  { eapply respects_weaken; [|apply episode_loop_evolves].
    intros s s'. apply evolves_weaken; auto.
    intros e. destruct e; simpl; congruence. }
  ev_bind.
  { unfold print_episode. destruct (1 <? verbose h); [|ev_prim].
    ev_bind; ev_prim. }
  ev_bind; ev_prim.
Qed.

Lemma rollout_candidate_evolves fuel a en params :
  respects (C := C) (evolves rollout_event true false) (rollout_candidate h fuel a en params).
Proof.
  unfold rollout_candidate. ev_bind; [ev_prim|].
  eapply respects_weaken; [|apply run_episode_evolves].
  intros s s'. apply evolves_weaken; auto.
  intros e. destruct e; simpl; congruence.
Qed.

Lemma rollout_loop_evolves fuel pop a en :
  respects (C := C) (evolves rollout_event true false) (rollout_loop h fuel pop a en).
Proof.
  revert a en. induction pop as [|p pop IH]; intros a en; simpl; [ev_prim|].
  apply (respects_bind _ (evolves_trans _ _ _));
    [apply rollout_candidate_evolves|intros [a' en']]. apply IH.
Qed.

Lemma rollout_phase_evolves fuel en :
  respects (C := C) (evolves rollout_event true false) (rollout_phase h fuel en).
Proof.
  unfold rollout_phase. ev_bind; [ev_prim|]. apply rollout_loop_evolves.
Qed.

Lemma callback_phase_evolves cb l :
  respects (C := C) (evolves is_callback true true) (callback_phase cb l).
Proof.
  destruct cb as [f|]; simpl; [|ev_prim].
  intros s a s'. destruct (f l (num_timesteps s) (es_params s) (world s)) as [v w].
  intros H; injection H as <- <-. apply evolves_log. reflexivity.
Qed.

Lemma tell_phase_evolves : respects (C := C) (evolves is_tell true true) tell_phase.
Proof.
  intros s a s'. unfold tell_phase. apply respects_call_. reflexivity.
Qed.

End Phases.

(** ** The gradient phase, call by call *)

Section Gradient.

Context {C : Collab}.
Variable h : Hyper.

Lemma params_returned_app (t1 t2 : list (Event C)) :
  params_returned (t1 ++ t2) = params_returned t1 ++ params_returned t2.
Proof.
  induction t1 as [|e t1 IH]; simpl; [reflexivity|].
  destruct e; simpl; rewrite ?IH; reflexivity.
Qed.

Lemma params_returned_iterations start (bs : list (Batch C)) :
  params_returned (iterations_events h start bs) = [].
Proof.
  revert start. induction bs as [|b bs IH]; intros start; simpl; [reflexivity|].
  destruct (_ =? 0); simpl; apply IH.
Qed.

Lemma train_iteration_spec it (s : Self C) :
  policy_freq h <> 0 ->
  exists b s', train_iteration h it s = Ok tt s' /\
    trace s' = trace s ++ iteration_events h it b /\ same_fields s s'.
Proof.
  intros Hpf. unfold train_iteration, bind, call, call_, py_mod, iteration_events.
  destruct (replay_sample C (batch_size h) (world s)) as [b w] eqn:Eb.
  apply Z.eqb_neq in Hpf. rewrite Hpf. simpl. exists b.
  destruct (it mod policy_freq h =? 0); simpl; eexists; split; try reflexivity;
    simpl; rewrite <- ?app_assoc; repeat split.
Qed.

Lemma train_loop_spec (n a : nat) (s : Self C) :
  policy_freq h <> 0 ->
  exists bs s', for_each (map Z.of_nat (seq a n)) (train_iteration h) s = Ok tt s' /\
    length bs = n /\ trace s' = trace s ++ iterations_events h (Z.of_nat a) bs /\
    same_fields s s' /\ (n = 0%nat -> s' = s).
Proof.
  intros Hpf. revert a s. induction n as [|n IH]; intros a s; simpl.
  - exists [], s. simpl. rewrite app_nil_r. repeat split.
  - destruct (train_iteration_spec (Z.of_nat a) s Hpf) as (b & s1 & E1 & T1 & F1 & F2 & F3).
    destruct (IH (S a) s1) as (bs & s2 & E2 & L2 & T2 & (G1 & G2 & G3) & _).
    exists (b :: bs), s2. rewrite (bind_Ok _ _ _ _ _ E1). split; [exact E2|].
    split; [simpl; congruence|]. split.
    + rewrite T2, T1, <- app_assoc. simpl. repeat f_equal. lia.
    + split; [|discriminate]. repeat split; congruence.
Qed.

(** One pass of the body of [for i in range(self.n_grad)] on a member that
    exists. *)
Lemma gradient_member_spec actor_steps i (s : Self C) v :
  policy_freq h <> 0 -> n_grad h <> 0 ->
  es_params s !! Z.to_nat i = Some v ->
  exists bs s', gradient_member h actor_steps i s = Ok tt s' /\
    length bs = Z.to_nat (2 * (actor_steps / n_grad h)) /\
    trace s' = trace s ++
      [EvLoadActor v; EvLoadTarget v; EvNewAdam (learning_rate h)] ++
      iterations_events h 0 bs ++ [EvParamsToVector (parameters_to_vector C (world s'))] /\
    es_params s' = <[Z.to_nat i := parameters_to_vector C (world s')]> (es_params s) /\
    num_timesteps s' = num_timesteps s /\ fitnesses s' = fitnesses s /\
    (bs = [] ->
     world s' = new_adam C (learning_rate h)
                  (actor_target_load_from_vector C v
                     (actor_load_from_vector C v (world s)))).
Proof.
  intros Hpf Hng Hv. unfold gradient_member.
  set (s1 := log (EvNewAdam (learning_rate h))
               (set_world (new_adam C (learning_rate h)
                  (actor_target_load_from_vector C v (actor_load_from_vector C v (world s))))
               (log (EvLoadTarget v) (log (EvLoadActor v) s)))).
  destruct (train_loop_spec (Z.to_nat (2 * (actor_steps / n_grad h))) 0 s1 Hpf)
    as (bs & s2 & E2 & L2 & T2 & (G1 & G2 & G3) & Z2).
  exists bs.
  eexists (mkSelf (world s2) (num_timesteps s2)
             (<[Z.to_nat i := parameters_to_vector C (world s2)]> (es_params s2))
             (fitnesses s2) (trace s2 ++ [EvParamsToVector (parameters_to_vector C (world s2))])).
  assert (Hlen : (Z.to_nat i <? length (es_params s2))%nat = true).
  { apply Nat.ltb_lt. rewrite G2. simpl. eapply lookup_lt_Some, Hv. }
  split.
  - erewrite bind_Ok; [|unfold es_params_get; rewrite Hv; reflexivity].
    erewrite bind_Ok; [|reflexivity].
    erewrite bind_Ok; [|unfold es_params_get; simpl; rewrite Hv; reflexivity].
    erewrite bind_Ok; [|reflexivity].
    erewrite bind_Ok; [|reflexivity].
    erewrite bind_Ok;
      [|unfold py_floordiv; apply Z.eqb_neq in Hng; rewrite Hng; reflexivity].
    erewrite bind_Ok; [|exact E2].
    erewrite bind_Ok; [|reflexivity].
    unfold es_params_set. simpl. rewrite Hlen. reflexivity.
  - split; [exact L2|]. simpl. split.
    { rewrite T2. unfold s1. simpl. rewrite <- !app_assoc. reflexivity. }
    split; [rewrite G2; reflexivity|]. split; [rewrite G1; reflexivity|].
    split; [rewrite G3; reflexivity|].
    intros ->. simpl in L2. rewrite <- L2 in Z2. rewrite (Z2 eq_refl). reflexivity.
Qed.

Lemma actor_loads_app (t1 t2 : list (Event C)) :
  actor_loads (t1 ++ t2) = actor_loads t1 ++ actor_loads t2.
Proof.
  induction t1 as [|e t1 IH]; simpl; [reflexivity|].
  destruct e; simpl; rewrite ?IH; reflexivity.
Qed.

Lemma actor_loads_iterations start (bs : list (Batch C)) :
  actor_loads (iterations_events h start bs) = [].
Proof.
  revert start. induction bs as [|b bs IH]; intros start; simpl; [reflexivity|].
  destruct (_ =? 0); simpl; apply IH.
Qed.

Lemma gradient_member_missing actor_steps i (s : Self C) :
  es_params s !! Z.to_nat i = None ->
  gradient_member h actor_steps i s = Raise IndexError s.
Proof.
  intros Hv. unfold gradient_member, bind, es_params_get. rewrite Hv. reflexivity.
Qed.

(** The first [n] passes of [for i in range(self.n_grad)], on a population
    that has at least [n] members. *)
Lemma gradient_members_spec actor_steps (n : nat) (s : Self C) :
  policy_freq h <> 0 -> n_grad h <> 0 ->
  (n <= length (es_params s))%nat ->
  exists new s',
    for_each (map Z.of_nat (seq 0 n)) (gradient_member h actor_steps) s = Ok tt s' /\
    trace s' = trace s ++ new /\
    length (es_params s') = length (es_params s) /\
    take n (es_params s') = params_returned new /\
    actor_loads new = take n (es_params s) /\
    (forall j, (n <= j)%nat -> es_params s' !! j = es_params s !! j) /\
    num_timesteps s' = num_timesteps s /\ fitnesses s' = fitnesses s.
Proof.
  intros Hpf Hng. induction n as [|n IH]; intros Hn.
  - exists [], s. simpl. rewrite app_nil_r, !take_0. repeat split.
  - destruct IH as (new & s1 & E1 & T1 & L1 & P1 & A1 & F1 & N1 & Fi1); [lia|].
    destruct (lookup_lt_is_Some_2 (es_params s) n) as [v Hv]; [lia|].
    assert (Hv1 : es_params s1 !! Z.to_nat (Z.of_nat n) = Some v).
    { rewrite Nat2Z.id, F1 by lia. exact Hv. }
    destruct (gradient_member_spec actor_steps (Z.of_nat n) s1 v Hpf Hng Hv1)
      as (bs & s2 & E2 & _ & T2 & P2 & N2 & Fi2 & _).
    rewrite Nat2Z.id in P2.
    exists (new ++ [EvLoadActor v; EvLoadTarget v; EvNewAdam (learning_rate h)] ++
            iterations_events h 0 bs ++ [EvParamsToVector (parameters_to_vector C (world s2))]), s2.
    split.
    { rewrite seq_S, map_app, for_each_app. simpl.
      rewrite (bind_Ok _ _ _ _ _ E1). unfold bind. rewrite E2. reflexivity. }
    split; [rewrite T2, T1, <- app_assoc; reflexivity|].
    split; [rewrite P2, length_insert; exact L1|].
    split.
    { rewrite P2, params_returned_app. simpl.
      rewrite params_returned_app, params_returned_iterations. simpl.
      erewrite take_S_r; [|apply list_lookup_insert_eq; lia].
      rewrite take_insert_ge by lia. rewrite P1. reflexivity. }
    split.
    { rewrite actor_loads_app. simpl.
      rewrite actor_loads_app, actor_loads_iterations. simpl.
      rewrite A1. symmetry. apply take_S_r, Hv. }
    split.
    { intros j Hj. rewrite P2, list_lookup_insert_ne by lia. apply F1. lia. }
    split; congruence.
Qed.


(** The whole phase on a configuration with [n_grad > len(es_params)]: every
    member is trained, then the read of the missing slot raises. *)
Lemma gradient_phase_overrun actor_steps (s : Self C) :
  policy_freq h <> 0 ->
  Z.of_nat (length (es_params s)) < n_grad h ->
  exists new s',
    gradient_phase h actor_steps s = Raise IndexError s' /\
    trace s' = trace s ++ new /\
    length (params_returned new) = length (es_params s).
Proof.
  intros Hpf Hn. unfold gradient_phase, py_range.
  set (len := length (es_params s)).
  assert (Hng : n_grad h <> 0) by lia.
  destruct (gradient_members_spec actor_steps len s Hpf Hng (Nat.le_refl _))
    as (new & s1 & E1 & T1 & L1 & P1 & _).
  exists new, s1.
  replace (Z.to_nat (n_grad h)) with (len + S (Z.to_nat (n_grad h) - len - 1))%nat by lia.
  rewrite seq_app, map_app, for_each_app. simpl.
  rewrite (bind_Ok _ _ _ _ _ E1). unfold bind.
  rewrite gradient_member_missing.
  - split; [reflexivity|]. split; [exact T1|].
    rewrite <- P1, length_take. fold len in L1. lia.
  - rewrite Nat2Z.id. apply lookup_ge_None_2. fold len in L1. lia.
Qed.

End Gradient.

(** ** Strings *)

Section Strings.

Open Scope string_scope.

Lemma string_length_append (a b : string) :
  String.length (a ++ b) = (String.length a + String.length b)%nat.
Proof. induction a as [|c a IH]; simpl; [reflexivity|]. rewrite IH. reflexivity. Qed.

Lemma substring_all (s : string) : substring 0 (String.length s) s = s.
Proof. induction s as [|c s IH]; simpl; [reflexivity|]. rewrite IH. reflexivity. Qed.

Lemma substring_skip (pre suf : string) :
  substring (String.length pre) (String.length suf) (pre ++ suf) = suf.
Proof. induction pre as [|c pre IH]; simpl; [apply substring_all|exact IH]. Qed.

Lemma substring_split (n : nat) (s : string) :
  (n <= String.length s)%nat ->
  s = substring 0 n s ++ substring n (String.length s - n) s.
Proof.
  revert s. induction n as [|n IH]; intros s Hn.
  - rewrite Nat.sub_0_r, substring_all. destruct s; reflexivity.
  - destruct s as [|c s]; simpl in *; [lia|].
    rewrite <- IH by lia. reflexivity.
Qed.

(** [endswith] is Python's: [s] ends with [suffix] when it is some prefix
    followed by [suffix]. *)
Lemma endswith_spec (s suffix : string) :
  endswith s suffix = true <-> exists pre, s = pre ++ suffix.
Proof.
  unfold endswith. rewrite andb_true_iff, Nat.leb_le, String.eqb_eq. split.
  - intros [Hk Hs]. exists (substring 0 (String.length s - String.length suffix) s).
    pose proof (substring_split (String.length s - String.length suffix) s) as E.
    replace (String.length s - (String.length s - String.length suffix))%nat
      with (String.length suffix) in E by lia.
    rewrite Hs in E. apply E. lia.
  - intros [pre ->]. rewrite string_length_append. split; [lia|].
    replace (String.length pre + String.length suffix - String.length suffix)%nat
      with (String.length pre) by lia.
    apply substring_skip.
Qed.

Lemma append_neq_self (p q : string) : q <> "" -> p ++ q <> p.
Proof.
  intros Hq E. apply (f_equal String.length) in E.
  rewrite string_length_append in E. destruct q; [congruence|simpl in E; lia].
Qed.

End Strings.

(** ** The rollout phase, step by step *)

Section Rollout.

Context {C : Collab}.
Variable h : Hyper.

Lemma choose_action_spec obs (s : Self C) a s1 :
  choose_action h obs s = Ok a s1 ->
  exists w,
    (num_timesteps s < start_timesteps h /\ action_space_sample C (world s) = (a, w) /\
     s1 = log (EvActionSample a) (set_world w s)) \/
    (start_timesteps h <= num_timesteps s /\ select_action C obs (world s) = (a, w) /\
     s1 = log (EvSelectAction obs a) (set_world w s)).
Proof.
  unfold choose_action, bind, get_num_timesteps, call.
  destruct (Z.ltb_spec (num_timesteps s) (start_timesteps h)) as [Hlt|Hge].
  - destruct (action_space_sample C (world s)) as [a' w] eqn:E.
    intros H; injection H as <- <-. exists w. left. repeat split. exact Hlt.
  - destruct (select_action C obs (world s)) as [a' w] eqn:E.
    intros H; injection H as <- <-. exists w. right. repeat split. exact Hge.
Qed.

Lemma noise_enabled_iff (x : Q) : negb (Qle_bool x 0) = true <-> (0 < x)%Q.
Proof.
  rewrite negb_true_iff. split.
  - intros H. apply Qnot_le_lt. intros Hle. apply Qle_bool_iff in Hle. congruence.
  - intros H. destruct (Qle_bool x 0) eqn:E; [|reflexivity].
    apply Qle_bool_iff in E. exfalso. eapply Qlt_not_le; eassumption.
Qed.

Lemma perturb_quiet a (s : Self C) :
  ~ (0 < action_noise_std h)%Q -> perturb h a s = Ok a s.
Proof.
  intros Hn. unfold perturb. destruct (negb _) eqn:E; [|reflexivity].
  apply noise_enabled_iff in E. contradiction.
Qed.

Lemma perturb_noisy a (s : Self C) a' s' :
  (0 < action_noise_std h)%Q ->
  perturb h a s = Ok a' s' ->
  exists noise w noisy,
    random_normal C 0 (action_noise_std h) (action_space_shape0 C) (world s) = (noise, w) /\
    broadcast_add a noise = Some noisy /\
    a' = map (clip (-1) 1) noisy /\
    s' = log (EvNormal 0 (action_noise_std h) (action_space_shape0 C) noise) (set_world w s).
Proof.
  intros Hn. apply noise_enabled_iff in Hn. unfold perturb. rewrite Hn.
  unfold bind, call, np_add.
  destruct (random_normal C 0 (action_noise_std h) (action_space_shape0 C) (world s))
    as [noise w] eqn:E.
  destruct (broadcast_add a noise) as [noisy|] eqn:B; [|discriminate].
  intros H; injection H as <- <-. exists noise, w, noisy. repeat split. exact B.
Qed.

Lemma clip_bounds (x : Q) : (-1 <= clip (-1) 1 x <= 1)%Q.
Proof.
  unfold clip. split.
  - apply Q.min_glb; [apply Q.le_max_r|discriminate].
  - apply Q.le_min_r.
Qed.

(** What remains of a step once the action is fixed (lines 144-160). *)
Lemma rollout_step_tail obs r t (s s1 s2 : Self C) a0 a1 :
  choose_action h obs s = Ok a0 s1 ->
  perturb h a0 s1 = Ok a1 s2 ->
  forall new_obs reward done w3,
    env_step C (map (Qmult (max_action C)) a1) (world s2) = (new_obs, reward, done, w3) ->
    let flag := done_flag (env_max_episode_steps C w3) t done in
    rollout_step h obs r t s =
      Ok (new_obs, (r + reward)%Q, t + 1, done)
         (mkSelf (replay_add C obs new_obs a1 reward flag w3) (num_timesteps s2 + 1)
                 (es_params s2) (fitnesses s2)
                 (trace s2 ++ [EvStep (map (Qmult (max_action C)) a1) (new_obs, reward, done);
                               EvAdd obs new_obs a1 reward flag])).
Proof.
  intros Hc Hp new_obs reward done w3 He flag. unfold rollout_step.
  rewrite (bind_Ok _ _ _ _ _ Hc), (bind_Ok _ _ _ _ _ Hp).
  unfold bind, call, call_, compute_done_bool, incr_num_timesteps. rewrite He. simpl.
  rewrite <- app_assoc. reflexivity.
Qed.

(** Every successful step splits into the three parts above. *)
Lemma rollout_step_inv obs r t (s : Self C) res s' :
  rollout_step h obs r t s = Ok res s' ->
  exists a0 s1 a1 s2 new_obs reward done w3,
    choose_action h obs s = Ok a0 s1 /\
    perturb h a0 s1 = Ok a1 s2 /\
    env_step C (map (Qmult (max_action C)) a1) (world s2) = (new_obs, reward, done, w3) /\
    res = (new_obs, (r + reward)%Q, t + 1, done) /\
    s' = mkSelf (replay_add C obs new_obs a1 reward
                   (done_flag (env_max_episode_steps C w3) t done) w3)
                (num_timesteps s2 + 1) (es_params s2) (fitnesses s2)
                (trace s2 ++ [EvStep (map (Qmult (max_action C)) a1) (new_obs, reward, done);
                              EvAdd obs new_obs a1 reward
                                (done_flag (env_max_episode_steps C w3) t done)]).
Proof.
  intros H. pose proof H as H0. unfold rollout_step in H.
  apply bind_Ok_inv in H as (a0 & s1 & Hc & H).
  apply bind_Ok_inv in H as (a1 & s2 & Hp & _).
  destruct (env_step C (map (Qmult (max_action C)) a1) (world s2))
    as [[[new_obs reward] done] w3] eqn:He.
  rewrite (rollout_step_tail obs r t s s1 s2 a0 a1 Hc Hp _ _ _ _ He) in H0.
  injection H0 as <- <-.
  exists a0, s1, a1, s2, new_obs, reward, done, w3. repeat split; assumption.
Qed.

End Rollout.

(** ** Counting environment steps *)

Section Accounting.

Context {C : Collab}.
Variable h : Hyper.

Lemma env_steps_app (t1 t2 : list (Event C)) : env_steps (t1 ++ t2) = env_steps t1 + env_steps t2.
Proof.
  induction t1 as [|e t1 IH]; simpl; [reflexivity|].
  destruct e; rewrite ?IH; lia.
Qed.

Lemma env_steps_none (P : Event C -> bool) t :
  (forall e, P e = true -> is_env_step e = false) ->
  forallb P t = true -> env_steps t = 0.
Proof.
  intros HP. induction t as [|e t IH]; simpl; [reflexivity|].
  rewrite andb_true_iff. intros [He Ht]. specialize (HP e He).
  destruct e; simpl in HP; try discriminate; apply IH, Ht.
Qed.

Lemma accounted_refl (s : Self C) : accounted s s.
Proof. exists []. rewrite app_nil_r. simpl. split; [reflexivity|lia]. Qed.

Lemma accounted_trans (s1 s2 s3 : Self C) : accounted s1 s2 -> accounted s2 s3 -> accounted s1 s3.
Proof.
  intros (n1 & T1 & N1) (n2 & T2 & N2). exists (n1 ++ n2).
  rewrite T2, T1, <- app_assoc, env_steps_app. split; [reflexivity|lia].
Qed.

Lemma evolves_accounted (P : Event C -> bool) kp s s' :
  (forall e, P e = true -> is_env_step e = false) ->
  evolves P kp true s s' -> accounted s s'.
Proof.
  intros HP [(new & T & F) (_ & N & _)]. exists new. split; [exact T|].
  rewrite (env_steps_none P new HP F), (N eq_refl). lia.
Qed.

Lemma quiet_accounted (P : Event C -> bool) kp {A} (c : M C A) :
  (forall e, P e = true -> is_env_step e = false) ->
  respects (C := C) (evolves P kp true) c -> respects (C := C) accounted c.
Proof.
  intros HP Hc. eapply respects_weaken; [|exact Hc].
  intros s s'. apply evolves_accounted, HP.
Qed.

Lemma choose_action_evolves (obs : Obs C) :
  respects (C := C) (evolves selection_event true true) (choose_action h obs).
Proof.
  intros s a s1 H. apply choose_action_spec in H as (w & [(_ & _ & ->)|(_ & _ & ->)]);
    apply evolves_log; reflexivity.
Qed.

Lemma perturb_evolves a :
  respects (C := C) (evolves selection_event true true) (perturb h a).
Proof.
  intros s a' s'. unfold perturb. destruct (negb _).
  - apply (respects_bind _ (evolves_trans _ _ _)); [|intros noise].
    + apply respects_call. reflexivity.
    + apply (respects_bind _ (evolves_trans _ _ _)); [|intros noisy].
      * apply (respects_np_add _ (evolves_refl _ _ _)).
      * apply (respects_ret _ (evolves_refl _ _ _)).
  - apply (respects_ret _ (evolves_refl _ _ _)).
Qed.

Lemma rollout_step_accounted obs r t (s : Self C) res s' :
  rollout_step h obs r t s = Ok res s' ->
  num_timesteps s' = num_timesteps s + 1 /\
  exists new, trace s' = trace s ++ new /\ env_steps new = 1.
Proof.
  intros H. apply rollout_step_inv in H
    as (a0 & s1 & a1 & s2 & new_obs & reward & done & w3 & Hc & Hp & He & -> & ->).
  apply choose_action_spec in Hc as (w & Hc).
  assert (Hs1 : num_timesteps s1 = num_timesteps s /\
                exists e, trace s1 = trace s ++ [e] /\ selection_event e = true).
  { destruct Hc as [(_ & _ & ->)|(_ & _ & ->)]; (split; [reflexivity|]);
      eexists; split; reflexivity. }
  destruct Hs1 as (N1 & e1 & T1 & S1).
  destruct (Qlt_le_dec 0 (action_noise_std h)) as [Hn|Hn].
  - apply (perturb_noisy h a0 s1 a1 s2 Hn) in Hp as (noise & w' & noisy & _ & _ & _ & ->).
    simpl. split; [lia|]. eexists. rewrite T1, <- !app_assoc. split; [reflexivity|].
    destruct e1; simpl in *; try discriminate; reflexivity.
  - rewrite perturb_quiet in Hp by (apply Qle_not_lt, Hn). injection Hp as <- <-.
    simpl. split; [lia|]. eexists. rewrite T1, <- !app_assoc. split; [reflexivity|].
    destruct e1; simpl in *; try discriminate; reflexivity.
Qed.

Lemma rollout_step_respects_accounted obs r t :
  respects (C := C) accounted (rollout_step h obs r t).
Proof.
  intros s res s' H. apply rollout_step_accounted in H as (N & new & T & E).
  exists new. split; [exact T|lia].
Qed.

(** An episode makes at least one step, and counts each of its steps once in
    [episode_timesteps] and once in [num_timesteps]. *)
Lemma episode_loop_steps fuel obs r t (s : Self C) r' t' s' :
  episode_loop h fuel obs r t s = Ok (r', t') s' ->
  t < t' /\ num_timesteps s' = num_timesteps s + (t' - t).
Proof.
  revert obs r t s. induction fuel as [|fuel IH]; intros obs r t s H; simpl in H;
    [discriminate|].
  apply bind_Ok_inv in H as ([[[new_obs r1] t1] done] & s1 & Hs & H).
  pose proof (rollout_step_accounted _ _ _ _ _ _ Hs) as (N1 & _).
  apply rollout_step_inv in Hs as (? & ? & ? & ? & no & rw & d & ? & _ & _ & _ & Hr & _).
  injection Hr as -> -> -> ->.
  destruct d.
  - injection H as <- <- <-. lia.
  - apply IH in H as [Ht Hn]. lia.
Qed.

Lemma episode_loop_accounted fuel obs r t :
  respects (C := C) accounted (episode_loop h fuel obs r t).
Proof.
  revert obs r t. induction fuel as [|fuel IH]; intros obs r t; simpl.
  - apply respects_timeout.
  - apply (respects_bind _ accounted_trans);
      [apply rollout_step_respects_accounted|intros [[[new_obs r'] t'] done]].
    destruct done; [apply (respects_ret _ accounted_refl)|apply IH].
Qed.

End Accounting.

(** ** Generations *)

Section Generations.

Context {C : Collab}.
Variable h : Hyper.

Ltac quiet := apply (quiet_accounted not_env_step true);
  [ let e := fresh in intros e; destruct e; unfold not_env_step; simpl; congruence
  | first [ apply respects_call; intros; reflexivity
          | apply respects_call_; reflexivity
          | apply respects_emit; reflexivity
          | apply respects_append_fitness
          | apply (respects_get_num_timesteps _ (evolves_refl _ _ _))
          | apply (respects_get_es_params _ (evolves_refl _ _ _)) ] ].

Lemma actor_loads_none (P : Event C -> bool) t :
  (forall e, P e = true -> match e with EvLoadActor _ => False | _ => True end) ->
  forallb P t = true -> actor_loads t = [].
Proof.
  intros HP. induction t as [|e t IH]; simpl; [reflexivity|].
  rewrite andb_true_iff. intros [He Ht]. specialize (HP e He).
  destruct e; try contradiction; apply IH, Ht.
Qed.

Lemma print_episode_accounted en et er :
  respects (C := C) accounted (print_episode h en et er).
Proof.
  unfold print_episode. destruct (1 <? verbose h).
  - apply (respects_bind _ accounted_trans); [quiet|intros nt; quiet].
  - apply (respects_ret _ accounted_refl).
Qed.

Lemma run_episode_accounted fuel a en :
  respects (C := C) accounted (run_episode h fuel a en).
Proof.
  unfold run_episode.
  apply (respects_bind _ accounted_trans); [quiet|intros obs].
  apply (respects_bind _ accounted_trans);
    [apply episode_loop_accounted|intros [er et]].
  apply (respects_bind _ accounted_trans); [apply print_episode_accounted|intros _].
  apply (respects_bind _ accounted_trans); [quiet|intros _].
  apply (respects_ret _ accounted_refl).
Qed.

(** One candidate: the candidate is loaded once, its episode makes at least
    one step, and every step is counted in [actor_steps] and in
    [num_timesteps]. *)
Lemma rollout_candidate_spec fuel a en p (s : Self C) a' en' s' :
  rollout_candidate h fuel a en p s = Ok (a', en') s' ->
  exists new, trace s' = trace s ++ new /\
    actor_loads new = [p] /\ forallb rollout_event new = true /\
    es_params s' = es_params s /\
    a < a' /\ env_steps new = a' - a /\
    num_timesteps s' = num_timesteps s + (a' - a) /\ en' = en + 1.
Proof.
  intros H. pose proof (rollout_candidate_evolves h _ _ _ _ _ _ _ H) as [(new & T & F) (P & _)].
  exists new. split; [exact T|].
  unfold rollout_candidate in H. apply bind_Ok_inv in H as ([] & s0 & H0 & H).
  injection H0 as <-.
  pose proof (run_episode_evolves h _ _ _ _ _ _ H) as [(rest & T1 & F1) _].
  pose proof (run_episode_accounted _ _ _ _ _ _ H) as (rest' & T2 & N2).
  assert (rest' = rest) as -> by (rewrite T1 in T2; eapply app_inv_head, eq_sym, T2).
  assert (new = EvLoadActor p :: rest) as ->.
  { rewrite T1 in T. simpl in T. rewrite <- app_assoc in T.
    eapply app_inv_head, eq_sym, T. }
  simpl in N2. split.
  { simpl. f_equal. apply (actor_loads_none run_event); [|exact F1].
    intros e. destruct e; simpl; try discriminate; trivial. }
  split; [exact F|]. split; [apply P; reflexivity|].
  unfold run_episode in H.
  apply bind_Ok_inv in H as (obs & s1 & H1 & H).
  unfold call in H1. simpl in H1.
  destruct (env_reset C (actor_load_from_vector C p (world s))) as [obs' w1].
  injection H1 as <- <-.
  apply bind_Ok_inv in H as ([er et] & s2 & H2 & H).
  apply episode_loop_steps in H2 as [Ht Hn]. simpl in Hn.
  apply bind_Ok_inv in H as ([] & s3 & H3 & H).
  assert (N3 : num_timesteps s3 = num_timesteps s2).
  { unfold print_episode in H3. destruct (1 <? verbose h).
    - unfold bind, get_num_timesteps, emit in H3. injection H3 as <-. reflexivity.
    - injection H3 as <-. reflexivity. }
  unfold bind, append_fitness, ret in H. injection H as <- <- <-. simpl.
  simpl in *. repeat split; lia.
Qed.

Lemma rollout_loop_spec fuel pop a en (s : Self C) a' en' s' :
  rollout_loop h fuel pop a en s = Ok (a', en') s' ->
  exists new, trace s' = trace s ++ new /\
    actor_loads new = pop /\ forallb rollout_event new = true /\
    es_params s' = es_params s /\
    a + Z.of_nat (length pop) <= a' /\ env_steps new = a' - a /\
    num_timesteps s' = num_timesteps s + (a' - a) /\
    en' = en + Z.of_nat (length pop).
Proof.
  revert a en s. induction pop as [|p pop IH]; intros a en s H; simpl in H.
  - injection H as <- <- <-. exists []. rewrite app_nil_r. simpl. repeat split; lia.
  - apply bind_Ok_inv in H as ([a1 en1] & s1 & H1 & H).
    apply rollout_candidate_spec in H1 as (n1 & T1 & L1 & F1 & P1 & A1 & E1 & N1 & X1).
    apply IH in H as (n2 & T2 & L2 & F2 & P2 & A2 & E2 & N2 & X2).
    exists (n1 ++ n2). rewrite T2, T1, <- app_assoc, actor_loads_app, L1, L2.
    rewrite forallb_app, F1, F2, env_steps_app. simpl length.
    repeat split; try congruence; lia.
Qed.

(** The rollout phase: every candidate of the population is loaded, in
    order; [actor_steps] restarts from 0. *)
Lemma rollout_phase_spec fuel en (s : Self C) a' en' s' :
  rollout_phase h fuel en s = Ok (a', en') s' ->
  exists new, trace s' = trace s ++ new /\
    actor_loads new = es_params s /\ forallb rollout_event new = true /\
    es_params s' = es_params s /\
    Z.of_nat (length (es_params s)) <= a' /\ env_steps new = a' /\
    num_timesteps s' = num_timesteps s + a' /\
    en' = en + Z.of_nat (length (es_params s)).
Proof.
  unfold rollout_phase, bind, get_es_params. intros H.
  apply rollout_loop_spec in H as (new & T & L & F & P & A & E & N & X).
  exists new. repeat split; try assumption; lia.
Qed.

End Generations.

(** ** The done flag of a stored transition *)

Section DoneFlag.

Context {C : Collab}.
Variable h : Hyper.

Lemma stored_flags_app (t1 t2 : list (Event C)) : stored_flags (t1 ++ t2) = stored_flags t1 ++ stored_flags t2.
Proof.
  induction t1 as [|e t1 IH]; simpl; [reflexivity|].
  destruct e; simpl; rewrite ?IH; reflexivity.
Qed.

Lemma raw_dones_app (t1 t2 : list (Event C)) : raw_dones (t1 ++ t2) = raw_dones t1 ++ raw_dones t2.
Proof.
  induction t1 as [|e t1 IH]; simpl; [reflexivity|].
  destruct e as [| | | | | | | | | | | | | | | |a [[o r] d]| | | | | |];
    simpl; rewrite ?IH; reflexivity.
Qed.

Lemma selection_no_flags (t : list (Event C)) :
  forallb selection_event t = true -> stored_flags t = [] /\ raw_dones t = [].
Proof.
  induction t as [|e t IH]; simpl; [split; reflexivity|].
  rewrite andb_true_iff. intros [He Ht].
  destruct e; simpl in He; try discriminate; apply IH, Ht.
Qed.

(** The log of a step: the selection calls, then [env.step], then
    [replay_buffer.add]. *)
Lemma rollout_step_trace obs r t (s : Self C) res s' :
  rollout_step h obs r t s = Ok res s' ->
  exists pre action new_obs reward done w2 w,
    env_step C (map (Qmult (max_action C)) action) w2 = (new_obs, reward, done, w) /\
    res = (new_obs, (r + reward)%Q, t + 1, done) /\
    trace s' = trace s ++ pre ++
      [EvStep (map (Qmult (max_action C)) action) (new_obs, reward, done);
       EvAdd obs new_obs action reward (done_flag (env_max_episode_steps C w) t done)] /\
    forallb selection_event pre = true /\
    world s' = replay_add C obs new_obs action reward
                 (done_flag (env_max_episode_steps C w) t done) w.
Proof.
  intros H. apply rollout_step_inv in H
    as (a0 & s1 & a1 & s2 & new_obs & reward & done & w3 & Hc & Hp & He & -> & ->).
  apply choose_action_evolves in Hc as [(n1 & T1 & F1) _].
  apply perturb_evolves in Hp as [(n2 & T2 & F2) _].
  exists (n1 ++ n2), a1, new_obs, reward, done, (world s2), w3.
  split; [exact He|]. split; [reflexivity|]. simpl.
  rewrite T2, T1, <- !app_assoc, forallb_app, F1, F2. repeat split.
Qed.

Lemma episode_flags attr fuel obs r t (s : Self C) r' t' s' :
  (forall w, env_max_episode_steps C w = attr) ->
  episode_loop h fuel obs r t s = Ok (r', t') s' ->
  exists new, trace s' = trace s ++ new /\
    t + Z.of_nat (length (raw_dones new)) = t' /\
    stored_flags new = flags_from attr t (raw_dones new).
Proof.
  intros Hattr. revert obs r t s. induction fuel as [|fuel IH]; intros obs r t s H;
    simpl in H; [discriminate|].
  apply bind_Ok_inv in H as ([[[new_obs r1] t1] done] & s1 & Hs & H).
  apply rollout_step_trace in Hs
    as (pre & action & no & rw & d & w2 & w & _ & Hr & T & F & _).
  injection Hr as -> -> -> ->. rewrite Hattr in T.
  destruct (selection_no_flags pre F) as [SF RD].
  destruct d.
  - injection H as <- <- <-. eexists. split; [exact T|].
    rewrite stored_flags_app, raw_dones_app, SF, RD. simpl. split; [lia|reflexivity].
  - apply IH in H as (new & T' & L' & F'). eexists. rewrite T', T, <- !app_assoc.
    split; [reflexivity|].
    rewrite !stored_flags_app, !raw_dones_app, SF, RD. simpl.
    rewrite F'. split; [lia|reflexivity].
Qed.

End DoneFlag.

(** ** The phases of one generation *)

Section OneGeneration.

Context {C : Collab}.
Variable h : Hyper.

Lemma ask_phase_spec (s : Self C) : ask_phase h s = Ok tt (after_ask h s).
Proof.
  unfold ask_phase, after_ask. destruct (es_ask C (pop_size h) (world s)) as [pop w].
  reflexivity.
Qed.

Lemma callback_phase_spec (f : Callback C) l (s : Self C) :
  callback_phase (Some f) l (after_ask h s)
  = Ok (is_False (callback_value h f l s)) (after_callback h f l s).
Proof.
  unfold callback_phase, after_callback, callback_value. simpl.
  destruct (f l (num_timesteps s) (fst (es_ask C (pop_size h) (world s)))
              (snd (es_ask C (pop_size h) (world s)))) as [v w].
  simpl. unfold log, set_world. simpl. rewrite <- app_assoc. reflexivity.
Qed.

Lemma is_False_iff v : is_False v = true <-> v = PyBool false.
Proof.
  split; [|intros ->; reflexivity].
  destruct v as [|[]| | |]; simpl; congruence.
Qed.

(** A generation under a callback: either it stops right after the callback,
    or it is the body run from the state the callback left. *)
Lemma generation_with_callback fuel (f : Callback C) ef ne l (s : Self C) :
  generation h fuel (Some f) ef ne l s =
  if is_False (callback_value h f l s) then Ok Break (after_callback h f l s)
  else bind (generation_body h fuel ef ne l) (fun l' => ret (Continue l'))
            (after_callback h f l s).
Proof.
  unfold generation.
  rewrite (bind_Ok _ _ _ _ _ (ask_phase_spec s)).
  rewrite (bind_Ok _ _ _ _ _ (callback_phase_spec f l s)).
  destruct (is_False (callback_value h f l s)); reflexivity.
Qed.

Lemma generation_without_callback fuel ef ne l (s : Self C) :
  generation h fuel None ef ne l s =
  bind (generation_body h fuel ef ne l) (fun l' => ret (Continue l')) (after_ask h s).
Proof.
  unfold generation.
  rewrite (bind_Ok _ _ _ _ _ (ask_phase_spec s)). reflexivity.
Qed.

Lemma generation_continue_inv fuel cb ef ne l (s : Self C) l' s' :
  generation h fuel cb ef ne l s = Ok (Continue l') s' ->
  generation_body h fuel ef ne l (body_start h cb l s) = Ok l' s'.
Proof.
  destruct cb as [f|]; simpl.
  - rewrite generation_with_callback. destruct (is_False _); [discriminate|].
    intros H. apply bind_Ok_inv in H as (l1 & s1 & H1 & H2).
    injection H2 as <- <-. exact H1.
  - rewrite generation_without_callback.
    intros H. apply bind_Ok_inv in H as (l1 & s1 & H1 & H2).
    injection H2 as <- <-. exact H1.
Qed.

Lemma body_start_spec cb l (s : Self C) :
  exists pre, trace (body_start h cb l s) = trace s ++ pre /\
    forallb (fun e => negb (gradient_only e)) pre = true /\ env_steps pre = 0 /\
    num_timesteps (body_start h cb l s) = num_timesteps s /\
    es_params (body_start h cb l s) = fst (es_ask C (pop_size h) (world s)).
Proof.
  destruct cb as [f|]; simpl; eexists; repeat split.
Qed.

Lemma generation_body_inv fuel ef ne l (s : Self C) l' s' :
  generation_body h fuel ef ne l s = Ok l' s' ->
  exists sg tse evs se a en sr,
    maybe_gradient_phase h (actor_steps l) s = Ok tt sg /\
    eval_phase h ef ne (timesteps_since_eval l) (evaluations l) sg = Ok (tse, evs) se /\
    rollout_phase h fuel (episode_num l) se = Ok (a, en) sr /\
    s' = log (EvTell (es_params sr) (fitnesses sr))
           (set_world (es_tell C (es_params sr) (fitnesses sr) (world sr)) sr) /\
    l' = mkLocals (tse + a) a en evs.
Proof.
  unfold generation_body. intros H.
  apply bind_Ok_inv in H as ([] & sg & Hg & H).
  apply bind_Ok_inv in H as ([tse evs] & se & He & H).
  apply bind_Ok_inv in H as ([a en] & sr & Hr & H).
  apply bind_Ok_inv in H as ([] & st & Ht & H).
  injection H as <- <-. unfold tell_phase, call_ in Ht. injection Ht as <-.
  exists sg, tse, evs, se, a, en, sr. repeat split; assumption.
Qed.

Lemma maybe_gradient_phase_spec a (s : Self C) :
  maybe_gradient_phase h a s =
  if 0 <? num_timesteps s then gradient_phase h a s else Ok tt s.
Proof.
  unfold maybe_gradient_phase, bind, get_num_timesteps.
  destruct (0 <? num_timesteps s); reflexivity.
Qed.

(** When it runs on a configuration with [n_grad >= 1] the gradient phase
    leaves a mark in the log: it loads the target network. *)
Lemma gradient_phase_marks a (s : Self C) s' :
  1 <= n_grad h ->
  gradient_phase h a s = Ok tt s' ->
  exists new, trace s' = trace s ++ new /\ existsb gradient_only new = true.
Proof.
  intros Hn. unfold gradient_phase, py_range.
  destruct (Z.to_nat (n_grad h)) as [|m] eqn:Em; [lia|]. simpl.
  intros H. apply bind_Ok_inv in H as ([] & s1 & H1 & H2).
  apply (respects_for_each _ (evolves_refl _ _ _) (evolves_trans _ _ _) _ _
           (gradient_member_evolves h a)) in H2 as [(n2 & T2 & _) _].
  unfold gradient_member in H1.
  apply bind_Ok_inv in H1 as (v & sa & Ha & H1).
  unfold es_params_get in Ha. destruct (es_params s !! _); [|discriminate].
  injection Ha as <- <-.
  apply bind_Ok_inv in H1 as ([] & sb & Hb & H1). injection Hb as <-.
  apply bind_Ok_inv in H1 as (v' & sc & Hc & H1).
  unfold es_params_get in Hc. simpl in Hc.
  destruct (es_params s !! _); [|discriminate]. injection Hc as <- <-.
  apply bind_Ok_inv in H1 as ([] & sd & Hd & H1). injection Hd as <-.
  match type of H1 with
  | ?k _ = _ =>
      assert (Hk : respects (C := C) (evolves gradient_event false true) k)
  end.
  { ev_bind; [ev_prim|]. ev_bind; [ev_prim|]. ev_bind; [|ev_bind; ev_prim].
    apply (respects_for_each _ (evolves_refl _ _ _) (evolves_trans _ _ _)).
    apply train_iteration_evolves. }
  apply Hk in H1 as [(n1 & T1 & _) _].
  eexists. rewrite T2, T1. simpl. rewrite <- !app_assoc. split; [reflexivity|].
  simpl. reflexivity.
Qed.

End OneGeneration.

Section Summary.

Context {C : Collab}.
Variable h : Hyper.

Lemma existsb_none (P Q : Event C -> bool) t :
  (forall e, P e = true -> Q e = false) ->
  forallb P t = true -> existsb Q t = false.
Proof.
  intros HP. induction t as [|e t IH]; simpl; [reflexivity|].
  rewrite andb_true_iff. intros [He Ht]. rewrite (HP e He), (IH Ht). reflexivity.
Qed.

(** What a generation that runs to its end did: which events it logged, how
    many environment steps it made, and what it hands to the next one. *)
Lemma generation_summary fuel cb ef ne l (s : Self C) l' s' :
  generation h fuel cb ef ne l s = Ok (Continue l') s' ->
  exists new, trace s' = trace s ++ new /\
    (existsb gradient_only new = true -> 0 < num_timesteps s) /\
    (1 <= n_grad h -> 0 < num_timesteps s -> existsb gradient_only new = true) /\
    env_steps new = actor_steps l' /\
    num_timesteps s' = num_timesteps s + actor_steps l' /\
    Z.of_nat (length (fst (es_ask C (pop_size h) (world s)))) <= actor_steps l'.
Proof.
  intros H. apply generation_continue_inv in H.
  destruct (body_start_spec h cb l s) as (pre & Tp & Fp & Ep & Np & Pp).
  apply generation_body_inv in H
    as (sg & tse & evs & se & a & en & sr & Hg & He & Hr & -> & ->).
  apply eval_phase_evolves in He as [(nev & Te & Fe) (Pe & Ne & Le)].
  apply rollout_phase_spec in Hr as (nr & Tr & _ & Fr & Pr & Ar & Er & Nr & _).
  rewrite maybe_gradient_phase_spec in Hg.
  assert (Hgrad : exists ng, trace sg = trace (body_start h cb l s) ++ ng /\
            env_steps ng = 0 /\
            num_timesteps sg = num_timesteps (body_start h cb l s) /\
            length (es_params sg) = length (es_params (body_start h cb l s)) /\
            (existsb gradient_only ng = true -> 0 < num_timesteps s) /\
            (1 <= n_grad h -> 0 < num_timesteps s -> existsb gradient_only ng = true)).
  { rewrite Np in Hg. destruct (Z.ltb_spec 0 (num_timesteps s)) as [Hpos|Hneg].
    - pose proof (gradient_phase_evolves h _ _ _ _ Hg) as [(ng & Tg & Fg) (_ & Ng & Lg)].
      exists ng. split; [exact Tg|]. split.
      { apply (env_steps_none gradient_event); [|exact Fg].
        intros e. destruct e; simpl; congruence. }
      split; [apply Ng; reflexivity|]. split; [exact Lg|]. split; [intros _; exact Hpos|].
      intros Hn _. destruct (gradient_phase_marks h _ _ _ Hn Hg) as (ng' & Tg' & Mg).
      rewrite Tg in Tg'. apply app_inv_head in Tg'. subst ng'. exact Mg.
    - injection Hg as <-. exists []. rewrite app_nil_r. simpl.
      repeat split; try reflexivity; try discriminate. intros _ Hpos. lia. }
  destruct Hgrad as (ng & Tg & Eg & Ng & Lg & G1 & G2).
  exists (pre ++ ng ++ nev ++ nr ++
          [EvTell (es_params sr) (fitnesses sr)]).
  assert (Xp : existsb gradient_only pre = false).
  { apply (existsb_none (fun e => negb (gradient_only e))); [|exact Fp].
    intros e. destruct (gradient_only e); simpl; congruence. }
  assert (Xe : existsb gradient_only nev = false).
  { apply (existsb_none eval_event); [|exact Fe]. intros e. destruct e; simpl; congruence. }
  assert (Xr : existsb gradient_only nr = false).
  { apply (existsb_none rollout_event); [|exact Fr].
    intros e. destruct e; simpl; congruence. }
  assert (Ee : env_steps nev = 0).
  { apply (env_steps_none eval_event); [|exact Fe]. intros e. destruct e; simpl; congruence. }
  split.
  { simpl. rewrite Tr, Te, Tg, Tp, <- !app_assoc. reflexivity. }
  rewrite !existsb_app, Xp, Xe, Xr. simpl. rewrite orb_false_r.
  split; [exact G1|]. split; [exact G2|].
  rewrite !env_steps_app, Ep, Eg, Ee, Er. simpl.
  split; [lia|]. split.
  - rewrite Nr, (Ne eq_refl), Ng, Np. reflexivity.
  - rewrite <- Pp, <- Lg, <- Le. exact Ar.
Qed.

End Summary.

(** ** Auxiliary lemmas *)

Lemma clip_cases (x : Q) :
  ((x < -1 -> clip (-1) 1 x == -1) /\
   (-1 <= x <= 1 -> clip (-1) 1 x == x) /\
   (1 < x -> clip (-1) 1 x == 1))%Q.
Proof.
  unfold clip. split; [|split].
  - intros Hx. rewrite Q.max_r by (apply Qlt_le_weak, Hx).
    apply Q.min_l. discriminate.
  - intros [H1 H2]. rewrite Q.max_l by exact H1. apply Q.min_l, H2.
  - intros Hx. apply Q.min_r.
    rewrite Q.max_l; [apply Qlt_le_weak, Hx|].
    apply Qlt_le_weak. eapply Qlt_trans; [|exact Hx]. reflexivity.
Qed.

Lemma learn_loop_next (C : Collab) (h : Hyper) fuel total cb ef ne l (s : Self C) l1 s1 :
  num_timesteps s < total ->
  generation h fuel cb ef ne l s = Ok (Continue l1) s1 ->
  learn_loop h (S fuel) total cb ef ne l s = learn_loop h fuel total cb ef ne l1 s1.
Proof.
  intros Hlt Hg. simpl. unfold bind at 1. unfold get_num_timesteps.
  apply Z.ltb_lt in Hlt. rewrite Hlt.
  rewrite (bind_Ok _ _ _ _ _ Hg). reflexivity.
Qed.


Lemma generations_num_timesteps (C : Collab) (h : Hyper) cb ef ne k l0 (s0 : Self C) l s :
  (forall w, fst (es_ask C (pop_size h) w) <> []) ->
  generations h cb ef ne k l0 s0 l s ->
  num_timesteps s0 + Z.of_nat k <= num_timesteps s.
Proof.
  intros Hpop H. induction H as [|k l0 s0 l1 s1 l2 s2 fuel _ IH Hg]; [lia|].
  destruct (generation_summary h _ _ _ _ _ _ _ _ Hg) as (new & _ & _ & _ & _ & N & A).
  specialize (Hpop (world s1)). destruct (fst (es_ask C (pop_size h) (world s1)));
    [congruence|]. simpl length in A. lia.
Qed.

Lemma learn_loop_break (C : Collab) (h : Hyper) (f : Callback C) fuel total ef ne l
    (s : Self C) :
  callback_value h f l s = PyBool false ->
  num_timesteps s < total ->
  learn_loop h (S fuel) total (Some f) ef ne l s = Ok l (after_callback h f l s).
Proof.
  intros Hv Hlt. simpl. unfold bind at 1. unfold get_num_timesteps.
  apply Z.ltb_lt in Hlt. rewrite Hlt.
  erewrite bind_Ok; [|rewrite generation_with_callback, Hv; reflexivity].
  reflexivity.
Qed.

(** ** The log of the whole gradient phase *)

Section MemberLog.
Context {C : Collab}.
Variable h : Hyper.

Lemma members_events_app (ms1 ms2 : list (Vec C * list (Batch C) * Vec C)) :
  members_events h (ms1 ++ ms2) = members_events h ms1 ++ members_events h ms2.
Proof.
  induction ms1 as [|m ms1 IH]; simpl; [reflexivity|].
  rewrite IH, <- app_assoc. reflexivity.
Qed.

(** The log of the first [n] passes of [for i in range(self.n_grad)]. *)
Lemma gradient_members_log steps (n : nat) (s : Self C) :
  policy_freq h <> 0 -> n_grad h <> 0 ->
  (n <= length (es_params s))%nat ->
  exists ms s',
    for_each (map Z.of_nat (seq 0 n)) (gradient_member h steps) s = Ok tt s' /\
    trace s' = trace s ++ members_events h ms /\
    map (fun m => fst (fst m)) ms = take n (es_params s) /\
    map snd ms = take n (es_params s') /\
    Forall (fun m => length (snd (fst m)) = Z.to_nat (2 * (steps / n_grad h))) ms /\
    length (es_params s') = length (es_params s) /\
    (forall j, (n <= j)%nat -> es_params s' !! j = es_params s !! j).
Proof.
  intros Hpf Hng. induction n as [|n IH]; intros Hn.
  - exists [], s. simpl. rewrite app_nil_r, !take_0. repeat split. constructor.
  - destruct IH as (ms & s1 & E1 & T1 & V1 & P1 & B1 & L1 & F1); [lia|].
    destruct (lookup_lt_is_Some_2 (es_params s) n) as [v Hv]; [lia|].
    assert (Hv1 : es_params s1 !! Z.to_nat (Z.of_nat n) = Some v).
    { rewrite Nat2Z.id, F1 by lia. exact Hv. }
    destruct (gradient_member_spec h steps (Z.of_nat n) s1 v Hpf Hng Hv1)
      as (bs & s2 & E2 & LB & T2 & P2 & _ & _ & _).
    rewrite Nat2Z.id in P2.
    exists (ms ++ [(v, bs, parameters_to_vector C (world s2))]), s2.
    split.
    { rewrite seq_S, map_app, for_each_app. simpl.
      rewrite (bind_Ok _ _ _ _ _ E1). unfold bind. rewrite E2. reflexivity. }
    split.
    { rewrite T2, T1, members_events_app, <- !app_assoc. simpl.
      rewrite app_nil_r. reflexivity. }
    split.
    { rewrite map_app, V1. simpl. symmetry. apply take_S_r, Hv. }
    split.
    { rewrite map_app, P1, P2. simpl.
      erewrite take_S_r; [|apply list_lookup_insert_eq; lia].
      rewrite take_insert_ge by lia. reflexivity. }
    split.
    { apply Forall_app. split; [exact B1|]. constructor; [exact LB|constructor]. }
    split; [rewrite P2, length_insert; exact L1|].
    intros j Hj. rewrite P2, list_lookup_insert_ne by lia. apply F1. lia.
Qed.

Lemma gradient_phase_never_completes steps (s : Self C) s' :
  Z.of_nat (length (es_params s)) < n_grad h ->
  gradient_phase h steps s <> Ok tt s'.
Proof.
  intros Hn H. unfold gradient_phase, py_range in H.
  set (len := length (es_params s)) in *.
  replace (Z.to_nat (n_grad h)) with (len + S (Z.to_nat (n_grad h) - len - 1))%nat in H
    by lia.
  rewrite seq_app, map_app, for_each_app in H. simpl in H.
  apply bind_Ok_inv in H as ([] & s1 & H1 & H2).
  apply (respects_for_each _ (evolves_refl _ _ _) (evolves_trans _ _ _) _ _
           (gradient_member_evolves h steps)) in H1 as (_ & _ & _ & L).
  apply bind_Ok_inv in H2 as ([] & s2 & H2 & _).
  rewrite gradient_member_missing in H2; [discriminate|].
  rewrite Nat2Z.id. apply lookup_ge_None_2. fold len in L. lia.
Qed.

End MemberLog.

(** ** What the gradient phase can raise *)

Section Raises.
Context {C : Collab}.
Variable h : Hyper.

Lemma raises_only_bind {A B} (E : exn -> Prop) (c : M C A) (k : A -> M C B) :
  raises_only E c -> (forall a, raises_only E (k a)) -> raises_only E (bind c k).
Proof.
  intros Hc Hk s. unfold bind. specialize (Hc s).
  destruct (c s) as [a s1|e s1|]; [apply Hk|exact Hc|exact Hc].
Qed.

Lemma raises_only_for_each {A} (E : exn -> Prop) (xs : list A) (body : A -> M C unit) :
  (forall x, raises_only E (body x)) -> raises_only E (for_each xs body).
Proof.
  intros Hb. induction xs as [|x xs IH]; simpl.
  - intros s. exact I.
  - apply raises_only_bind; [apply Hb|intros _; exact IH].
Qed.

Lemma train_iteration_raises it : raises_only (gradient_exn h) (train_iteration (C := C) h it).
Proof.
  intros s. unfold train_iteration, bind, call, call_, py_mod, ret, raise.
  destruct (replay_sample C (batch_size h) (world s)) as [b w].
  destruct (Z.eqb_spec (policy_freq h) 0) as [Hz|Hz].
  - right. split; [reflexivity|exact Hz].
  - destruct (it mod policy_freq h =? 0); exact I.
Qed.

Lemma gradient_member_raises steps i :
  n_grad h <> 0 -> raises_only (gradient_exn h) (gradient_member (C := C) h steps i).
Proof.
  intros Hn. unfold gradient_member.
  assert (G : raises_only (gradient_exn h) (es_params_get (C := C) i)).
  { intros s. unfold es_params_get. destruct (es_params s !! Z.to_nat i); [exact I|].
    left. reflexivity. }
  apply raises_only_bind; [exact G|intros v].
  apply raises_only_bind; [intros s; exact I|intros _].
  apply raises_only_bind; [exact G|intros v'].
  apply raises_only_bind; [intros s; exact I|intros _].
  apply raises_only_bind; [intros s; exact I|intros _].
  apply raises_only_bind.
  { intros s. unfold py_floordiv. apply Z.eqb_neq in Hn. rewrite Hn. exact I. }
  intros q. apply raises_only_bind.
  { apply raises_only_for_each. intros it. apply train_iteration_raises. }
  intros _. apply raises_only_bind; [intros s; exact I|intros p].
  intros s. unfold es_params_set.
  destruct (Z.to_nat i <? length (es_params s))%nat; [exact I|left; reflexivity].
Qed.

Lemma gradient_phase_fails steps (s : Self C) :
  Z.of_nat (length (es_params s)) < n_grad h ->
  exists e s', gradient_phase h steps s = Raise e s' /\ gradient_exn h e.
Proof.
  intros Hn.
  assert (R : raises_only (gradient_exn h) (gradient_phase (C := C) h steps)).
  { apply raises_only_for_each. intros i. apply gradient_member_raises. lia. }
  specialize (R s). pose proof (gradient_phase_never_completes h steps s) as N.
  destruct (gradient_phase h steps s) as [[] s1|e s1|].
  - exfalso. exact (N s1 Hn eq_refl).
  - exists e, s1. split; [reflexivity|exact R].
  - destruct R.
Qed.

End Raises.

(** ** Claims *)

(** C1: in the rollout phase every environment step stores, as done flag, 0
    when the environment has a [_max_episode_steps] attribute and
    [episode_timesteps + 1] equals it, whatever the raw done signal; and the
    raw done signal converted to a float otherwise (1.0 for a true done at an
    earlier step; always the float when the attribute is absent).  The first
    part is about one step made with an arbitrary [episode_timesteps]; the
    second about a whole episode of an environment whose attribute is fixed:
    its k-th stored flag is the flag of step k. *)
Theorem done_flag_stored (C : Collab) (h : Hyper) :
  (forall obs r t (s : Self C) res s',
     rollout_step h obs r t s = Ok res s' ->
     exists pre action new_obs reward done w2 w flag,
       env_step C (map (Qmult (max_action C)) action) w2 = (new_obs, reward, done, w) /\
       trace s' = trace s ++ pre ++
         [EvStep (map (Qmult (max_action C)) action) (new_obs, reward, done);
          EvAdd obs new_obs action reward flag] /\
       forallb selection_event pre = true /\
       (forall m, env_max_episode_steps C w = Some (PyInt m) -> t + 1 = m ->
                  flag = PyInt 0) /\
       (forall m, env_max_episode_steps C w = Some (PyInt m) -> t + 1 <> m ->
                  flag = PyFloat (if done then 1%Q else 0%Q)) /\
       (env_max_episode_steps C w = None -> flag = PyFloat (if done then 1%Q else 0%Q))) /\
  (forall attr fuel obs (s : Self C) r' t' s',
     (forall w, env_max_episode_steps C w = attr) ->
     episode_loop h fuel obs 0%Q 0 s = Ok (r', t') s' ->
     exists new, trace s' = trace s ++ new /\
       Z.of_nat (length (raw_dones new)) = t' /\
       stored_flags new = flags_from attr 0 (raw_dones new)) /\
  (forall m t done, t + 1 = m -> done_flag (Some (PyInt m)) t done = PyInt 0) /\
  done_flag (Some (PyInt 200)) 199 false = PyInt 0 /\
  done_flag (Some (PyInt 200)) 149 true = PyFloat 1.
Proof.
  split; [|split; [|split; [|split]]].
  - intros obs r t s res s' H.
    apply rollout_step_trace in H
      as (pre & action & no & rw & d & w2 & w & He & _ & T & F & _).
    exists pre, action, no, rw, d, w2, w, (done_flag (env_max_episode_steps C w) t d).
    split; [exact He|]. split; [exact T|]. split; [exact F|].
    split; [|split].
    + intros m -> <-. simpl. rewrite Z.eqb_refl. reflexivity.
    + intros m -> Hm. simpl. apply Z.eqb_neq in Hm. rewrite Hm. reflexivity.
    + intros ->. reflexivity.
  - intros attr fuel obs s r' t' s' Hattr H.
    destruct (episode_flags h attr fuel obs 0%Q 0 s r' t' s' Hattr H) as (new & T & L & F).
    exists new. split; [exact T|]. split; [lia|exact F].
  - intros m t done <-. simpl. rewrite Z.eqb_refl. reflexivity.
  - reflexivity.
  - reflexivity.
Qed.

(** The second step of an episode of the toy environment, whose
    [_max_episode_steps] is 2: the raw done signal is true, the flag stored
    is 0. *)
Lemma done_flag_stored_witness :
  exists res s',
    rollout_step (C := Toy.collab) (Toy.hyper 1 0) 1 1%Q 1
      (@mkSelf Toy.collab (Toy.mkW 1 0 0) 1 [] [] []) = Ok res s' /\
    exists pre action new_obs reward done,
      trace s' = [] ++ pre ++
        [EvStep (C := Toy.collab) (map (Qmult 2) action) (new_obs, reward, done);
         EvAdd (C := Toy.collab) 1 new_obs action reward (PyInt 0)].
Proof.
  eassert (E : rollout_step (C := Toy.collab) (Toy.hyper 1 0) 1 1%Q 1
                 (@mkSelf Toy.collab (Toy.mkW 1 0 0) 1 [] [] []) = Ok _ _);
    [vm_compute; reflexivity|].
  eexists _, _. split; [exact E|].
  destruct (proj1 (done_flag_stored Toy.collab (Toy.hyper 1 0)) _ _ _ _ _ _ E)
    as (pre & action & new_obs & reward & done & w2 & w & flag & _ & T & _ & H1 & _).
  rewrite (H1 2 eq_refl eq_refl) in T.
  exists pre, action, new_obs, reward, done. exact T.
Defined.

(** C2: the gradient phase runs the member body for each [i < n_grad], in
    order, on the candidate found in slot [i] (this is [members_events]: one
    [member_events] block per member, [n_grad] blocks in all), and for every
    member the inner loop runs [2 * q] iterations, where [q] is the floor of
    [steps / n_grad], [steps] being the value of [actor_steps]; iteration
    [it] samples one batch of size [batch_size], trains the critic on it, and
    trains the actor on the same batch exactly when [it % policy_freq == 0]
    (this is [iterations_events]); with [actor_steps = 0] there is no
    iteration and the slot receives the parameters read back right after the
    loads.  A generation that starts with [num_timesteps > 0] runs this
    phase with its local [actor_steps] and then goes on from the state the
    phase leaves; [actor_steps] is the value left by the previous generation:
    a completed generation hands the number of its environment steps to the
    next one. *)
Theorem gradient_iterations (C : Collab) (h : Hyper) (steps : Z) (s : Self C) :
  policy_freq h <> 0 ->
  0 < n_grad h <= Z.of_nat (length (es_params s)) ->
  exists q ms s',
    gradient_phase h steps s = Ok tt s' /\
    n_grad h * q <= steps < n_grad h * (q + 1) /\
    trace s' = trace s ++ members_events h ms /\
    length ms = Z.to_nat (n_grad h) /\
    map (fun m => fst (fst m)) ms = take (Z.to_nat (n_grad h)) (es_params s) /\
    map snd ms = take (Z.to_nat (n_grad h)) (es_params s') /\
    Forall (fun m => length (snd (fst m)) = Z.to_nat (2 * q)) ms /\
    (steps = 0 -> Forall (fun m => snd (fst m) = []) ms) /\
    (forall i v (s0 : Self C),
       0 <= i < n_grad h -> es_params s0 !! Z.to_nat i = Some v ->
       exists bs s1,
         gradient_member h steps i s0 = Ok tt s1 /\
         length bs = Z.to_nat (2 * q) /\
         trace s1 = trace s0 ++
           member_events h (v, bs, parameters_to_vector C (world s1)) /\
         es_params s1 = <[Z.to_nat i := parameters_to_vector C (world s1)]> (es_params s0) /\
         (steps = 0 ->
            bs = [] /\
            world s1 = new_adam C (learning_rate h)
                         (actor_target_load_from_vector C v
                            (actor_load_from_vector C v (world s0))))) /\
    (forall fuel ef ne l,
       0 < num_timesteps s -> actor_steps l = steps ->
       generation_body h fuel ef ne l s =
       bind (eval_phase h ef ne (timesteps_since_eval l) (evaluations l))
         (fun '(tse, evs) =>
            bind (rollout_phase h fuel (episode_num l))
              (fun '(a, en) =>
                 bind tell_phase (fun _ => ret (mkLocals (tse + a) a en evs)))) s') /\
    (forall fuel total cb ef ne l (s0 : Self C) l1 s1,
       generation h fuel cb ef ne l s0 = Ok (Continue l1) s1 ->
       (exists new, trace s1 = trace s0 ++ new /\ actor_steps l1 = env_steps new) /\
       (num_timesteps s0 < total ->
        learn_loop h (S fuel) total cb ef ne l s0
        = learn_loop h fuel total cb ef ne l1 s1)).
Proof.
  intros Hpf [Hn0 Hn].
  assert (Hng : n_grad h <> 0) by lia.
  destruct (gradient_members_log h steps (Z.to_nat (n_grad h)) s Hpf Hng ltac:(lia))
    as (ms & s' & E & T & V & P & B & L & F).
  exists (steps / n_grad h), ms, s'.
  split; [exact E|]. split.
  { split; [apply Z.mul_div_le; lia|].
    replace (steps / n_grad h + 1) with (Z.succ (steps / n_grad h)) by lia.
    apply Z.mul_succ_div_gt. lia. }
  split; [exact T|]. split.
  { rewrite <- (length_map (fun m => fst (fst m))), V, length_take. lia. }
  split; [exact V|]. split; [exact P|].
  split; [exact B|]. split.
  { intros ->. rewrite Z.div_0_l in B by exact Hng. simpl in B.
    eapply Forall_impl; [exact B|]. intros [[v bs] p]. simpl.
    destruct bs; [reflexivity|discriminate]. }
  split.
  { intros i v s0 Hi Hv.
    destruct (gradient_member_spec h steps i s0 v Hpf Hng Hv)
      as (bs & s1 & E1 & L1 & T1 & P1 & _ & _ & Z1).
    exists bs, s1. split; [exact E1|]. split; [exact L1|]. split; [exact T1|].
    split; [exact P1|]. intros ->. rewrite Z.div_0_l in L1 by exact Hng. simpl in L1.
    destruct bs; [|discriminate]. split; [reflexivity|]. apply Z1. reflexivity. }
  split.
  { intros fuel ef ne l Hpos Hl. unfold generation_body.
    erewrite bind_Ok; [reflexivity|].
    rewrite maybe_gradient_phase_spec. apply Z.ltb_lt in Hpos.
    rewrite Hpos, Hl. exact E. }
  intros fuel total cb ef ne l s0 l1 s1 Hg. split.
  - destruct (generation_summary h _ _ _ _ _ _ _ _ Hg) as (new & Tn & _ & _ & En & _).
    exists new. split; [exact Tn|]. symmetry. exact En.
  - intros Hlt. apply learn_loop_next; assumption.
Qed.

(** The toy population trained with [actor_steps = 4] and [n_grad = 1]: one
    member, eight iterations. *)
Lemma gradient_iterations_witness :
  exists (ms : list (Vec Toy.collab * list (Batch Toy.collab) * Vec Toy.collab)) s',
    gradient_phase (C := Toy.collab) (Toy.hyper 1 0) 4
      (@mkSelf Toy.collab Toy.w0 4 [10; 20] [] []) = Ok tt s' /\
    length ms = 1%nat /\
    Forall (fun m => length (snd (fst m)) = 8%nat) ms.
Proof.
  destruct (gradient_iterations Toy.collab (Toy.hyper 1 0) 4
              (@mkSelf Toy.collab Toy.w0 4 [10; 20] [] []))
    as (q & ms & s' & E & Hq & _ & L & _ & _ & B & _).
  - discriminate.
  - simpl. lia.
  - exists ms, s'. split; [exact E|]. split; [exact L|].
    change (n_grad (Toy.hyper 1 0)) with 1 in Hq.
    assert (q = 4) as -> by lia. exact B.
Defined.

(** C3: in a generation that goes on past the callback hook and runs to its
    end, the gradient phase is executed if and only if [num_timesteps > 0]
    when the generation starts (with [n_grad >= 1] its execution shows in the
    log as calls that only the gradient phase makes).  In particular, for an
    object whose [num_timesteps] is 0 and a strategy that returns a non-empty
    population, the first generation skips the phase and every later
    generation executes it. *)
Theorem gradient_phase_guard (C : Collab) (h : Hyper) (cb : option (Callback C))
    (ef ne : Z) :
  1 <= n_grad h ->
  (forall fuel l (s : Self C) l' s',
     generation h fuel cb ef ne l s = Ok (Continue l') s' ->
     exists new, trace s' = trace s ++ new /\
       (existsb gradient_only new = true <-> 0 < num_timesteps s)) /\
  (forall k l0 (s0 : Self C) l s fuel l' s',
     (forall w, fst (es_ask C (pop_size h) w) <> []) ->
     num_timesteps s0 = 0 ->
     generations h cb ef ne k l0 s0 l s ->
     generation h fuel cb ef ne l s = Ok (Continue l') s' ->
     exists new, trace s' = trace s ++ new /\
       (existsb gradient_only new = true <-> (0 < k)%nat)).
Proof.
  intros Hn. split.
  - intros fuel l s l' s' Hg.
    destruct (generation_summary h _ _ _ _ _ _ _ _ Hg) as (new & T & G1 & G2 & _).
    exists new. split; [exact T|]. split; [exact G1|apply G2, Hn].
  - intros k l0 s0 l s fuel l' s' Hpop H0 Hk Hg.
    destruct (generation_summary h _ _ _ _ _ _ _ _ Hg) as (new & T & G1 & G2 & _).
    exists new. split; [exact T|].
    pose proof (generations_num_timesteps C h cb ef ne k l0 s0 l s Hpop Hk) as Hnt.
    split.
    + intros Hm. apply G1 in Hm. destruct k; [|lia].
      inversion Hk; subst. lia.
    + intros Hpos. apply (G2 Hn). lia.
Qed.

(** The second generation of the toy run executes the gradient phase. *)
Lemma gradient_phase_guard_witness :
  exists l s l' s' new,
    generation (C := Toy.collab) (Toy.hyper 1 0) 8 None (-1) 5 l s = Ok (Continue l') s' /\
    trace s' = trace s ++ new /\
    existsb gradient_only new = true.
Proof.
  eassert (G1 : generation (C := Toy.collab) (Toy.hyper 1 0) 9 None (-1) 5
                  (mkLocals 0 0 0 []) Toy.self0 = Ok (Continue _) _);
    [vm_compute; reflexivity|].
  match type of G1 with
  | _ = Ok (Continue ?l1) ?s1 =>
      eassert (G2 : generation (C := Toy.collab) (Toy.hyper 1 0) 8 None (-1) 5 l1 s1
                    = Ok (Continue _) _);
        [vm_compute; reflexivity|]
  end.
  assert (Hn : 1 <= n_grad (Toy.hyper 1 0)) by (simpl; lia).
  assert (Hpop : forall w, fst (es_ask Toy.collab (pop_size (Toy.hyper 1 0)) w) <> [])
    by (intros w; discriminate).
  pose proof (generations_S _ _ _ _ _ _ _ _ _ _ _ _ (generations_O _ _ _ _ _ _) G1) as Hk.
  destruct (proj2 (gradient_phase_guard Toy.collab (Toy.hyper 1 0) None (-1) 5 Hn)
              1%nat (mkLocals 0 0 0 []) Toy.self0 _ _ _ _ _ Hpop eq_refl Hk G2)
    as (new & T & I).
  do 4 eexists. exists new. split; [exact G2|]. split; [exact T|]. apply I. lia.
Defined.

(** C4: with a callback, a generation leaves the loop early if and only if
    the callback returned exactly [False]; [None] and every other value,
    falsy or not, lets the generation go on with its body.  The early exit
    happens right after the ask phase: the population is the sampled one, the
    fitness list is empty, the log of the generation holds the [ask] and the
    callback call only, and [learn] returns in that state. *)
Theorem callback_stops_on_False (C : Collab) (h : Hyper) (f : Callback C)
    (fuel : nat) (ef ne : Z) (l : Locals) (s : Self C) :
  let pop := fst (es_ask C (pop_size h) (world s)) in
  let v := callback_value h f l s in
  let s2 := after_callback h f l s in
  ((exists s', generation h fuel (Some f) ef ne l s = Ok Break s') <-> v = PyBool false) /\
  (v = PyBool false ->
     generation h fuel (Some f) ef ne l s = Ok Break s2 /\
     forall total, num_timesteps s < total ->
       learn_loop h (S fuel) total (Some f) ef ne l s = Ok l s2) /\
  (v <> PyBool false ->
     generation h fuel (Some f) ef ne l s =
     bind (generation_body h fuel ef ne l) (fun l' => ret (Continue l')) s2) /\
  (v = PyNone \/ v = PyInt 0 \/ v = PyStr EmptyString \/ v = PyBool true ->
     forall s', generation h fuel (Some f) ef ne l s <> Ok Break s') /\
  es_params s2 = pop /\ fitnesses s2 = [] /\ num_timesteps s2 = num_timesteps s /\
  trace s2 = trace s ++ [EvAsk (pop_size h) pop; EvCallback v].
Proof.
  intros pop v s2. pose proof (generation_with_callback h fuel f ef ne l s) as G.
  fold v in G. fold s2 in G.
  assert (Hcont : v <> PyBool false ->
            generation h fuel (Some f) ef ne l s =
            bind (generation_body h fuel ef ne l) (fun l' => ret (Continue l')) s2).
  { intros Hv. rewrite G. destruct (is_False v) eqn:E; [|reflexivity].
    apply is_False_iff in E. contradiction. }
  assert (Hnb : v <> PyBool false ->
            forall s', generation h fuel (Some f) ef ne l s <> Ok Break s').
  { intros Hv s' Hg. rewrite (Hcont Hv) in Hg.
    apply bind_Ok_inv in Hg as (l1 & s1 & _ & Hr). discriminate. }
  split; [|split; [|split; [|split]]].
  - split.
    + intros [s' Hg]. destruct (is_False v) eqn:E; [apply is_False_iff, E|].
      exfalso. eapply Hnb; [|exact Hg].
      intros Hv. apply is_False_iff in Hv. congruence.
    + intros Hv. exists s2. rewrite G, Hv. reflexivity.
  - intros Hv. assert (Hg : generation h fuel (Some f) ef ne l s = Ok Break s2).
    { rewrite G, Hv. reflexivity. }
    split; [exact Hg|]. intros total Hlt. apply learn_loop_break; assumption.
  - exact Hcont.
  - intros Hv. apply Hnb. destruct Hv as [->|[->|[->| ->]]]; discriminate.
  - repeat split.
Qed.

(** A callback that returns [None], then 0, then the empty string, all of
    them falsy and none of them [False]: the toy run goes on until
    [total_timesteps] is reached. *)
Example falsy_returns_do_not_stop :
  exists l s,
    learn (C := Toy.collab) (Toy.hyper 1 0) 10 12 (Some Toy.falsy_forever) (-1) 5 Toy.self0
      = Ok l s /\
    num_timesteps s = 12.
Proof. do 2 eexists. split; [vm_compute; reflexivity|reflexivity]. Qed.

(** C5 as stated fails: in the toy run the callback returns [False] on
    generation 3 and [learn] returns with 8 steps, those of generations 1
    and 2, while generation 3 run through its rollout phase (here: the same
    generation without the halt) would bring [num_timesteps] to 12. *)
Lemma halting_generation_makes_no_step :
  exists l s l1 s1 l2 s2 l3 s3,
    learn (C := Toy.collab) (Toy.hyper 1 0) 10 100 (Some Toy.stop_on_third) (-1) 5 Toy.self0
      = Ok l s /\
    generation (Toy.hyper 1 0) 9 (Some Toy.stop_on_third) (-1) 5 (mkLocals 0 0 0 []) Toy.self0
      = Ok (Continue l1) s1 /\
    generation (Toy.hyper 1 0) 8 (Some Toy.stop_on_third) (-1) 5 l1 s1
      = Ok (Continue l2) s2 /\
    callback_value (Toy.hyper 1 0) Toy.stop_on_third l2 s2 = PyBool false /\
    generation (Toy.hyper 1 0) 7 None (-1) 5 l2 s2 = Ok (Continue l3) s3 /\
    num_timesteps s3 = 12 /\
    num_timesteps s = 8 /\
    env_steps (trace s) = 8 /\
    num_timesteps s <> num_timesteps s3.
Proof.
  do 8 eexists.
  split; [vm_compute; reflexivity|].
  split; [vm_compute; reflexivity|].
  split; [vm_compute; reflexivity|].
  split; [vm_compute; reflexivity|].
  split; [vm_compute; reflexivity|].
  split; [vm_compute; reflexivity|].
  split; [vm_compute; reflexivity|].
  split; [vm_compute; reflexivity|].
  vm_compute. discriminate.
Qed.

(** C5, as the code has it: when the callback returns [False] on
    generation 3, [learn] returns with [num_timesteps] equal to the
    environment steps made through the rollout phase of generation 2;
    generation 3 adds its [ask] and its callback call to the log, and no
    environment step. *)
Theorem halt_on_third_generation (C : Collab) (h : Hyper) (f : Callback C)
    (fuel : nat) (total ef ne : Z) (s0 : Self C) l1 s1 l2 s2 :
  num_timesteps s0 < total ->
  generation h (S (S fuel)) (Some f) ef ne (mkLocals 0 0 0 []) s0 = Ok (Continue l1) s1 ->
  num_timesteps s1 < total ->
  generation h (S fuel) (Some f) ef ne l1 s1 = Ok (Continue l2) s2 ->
  num_timesteps s2 < total ->
  callback_value h f l2 s2 = PyBool false ->
  exists s3 new,
    learn h (S (S (S fuel))) total (Some f) ef ne s0 = Ok l2 s3 /\
    num_timesteps s3 = num_timesteps s2 /\
    trace s3 = trace s2 ++ [EvAsk (pop_size h) (es_params s3); EvCallback (PyBool false)] /\
    trace s2 = trace s0 ++ new /\
    env_steps new = actor_steps l1 + actor_steps l2 /\
    num_timesteps s3 = num_timesteps s0 + env_steps new.
Proof.
  intros H0 G1 H1 G2 H2 Hv.
  destruct (generation_summary h _ _ _ _ _ _ _ _ G1) as (n1 & T1 & _ & _ & E1 & N1 & _).
  destruct (generation_summary h _ _ _ _ _ _ _ _ G2) as (n2 & T2 & _ & _ & E2 & N2 & _).
  exists (after_callback h f l2 s2), (n1 ++ n2). split.
  { unfold learn. rewrite (learn_loop_next C h _ _ _ _ _ _ _ _ _ H0 G1).
    rewrite (learn_loop_next C h _ _ _ _ _ _ _ _ _ H1 G2).
    apply learn_loop_break; assumption. }
  split; [reflexivity|]. split; [simpl; rewrite Hv; reflexivity|].
  split; [rewrite T2, T1, <- app_assoc; reflexivity|].
  rewrite env_steps_app. simpl. split; lia.
Qed.

(** Generations 1 and 2 of the toy run make 4 steps each; the callback
    returns [False] on generation 3 and [learn] returns with 8 steps. *)
Lemma halt_on_third_generation_witness :
  exists l2 s3,
    learn (C := Toy.collab) (Toy.hyper 1 0) 10 100 (Some Toy.stop_on_third) (-1) 5 Toy.self0
      = Ok l2 s3 /\ num_timesteps s3 = 8.
Proof.
  eassert (G1 : generation (C := Toy.collab) (Toy.hyper 1 0) 9 (Some Toy.stop_on_third)
                  (-1) 5 (mkLocals 0 0 0 []) Toy.self0 = Ok (Continue _) _);
    [vm_compute; reflexivity|].
  match type of G1 with
  | _ = Ok (Continue ?l1) ?s1 =>
      eassert (G2 : generation (C := Toy.collab) (Toy.hyper 1 0) 8
                      (Some Toy.stop_on_third) (-1) 5 l1 s1 = Ok (Continue _) _);
        [vm_compute; reflexivity|]
  end.
  destruct (halt_on_third_generation Toy.collab (Toy.hyper 1 0) Toy.stop_on_third 7 100
              (-1) 5 Toy.self0 _ _ _ _ eq_refl G1 eq_refl G2 eq_refl eq_refl)
    as (s3 & new & E & N & _).
  eexists _, s3. split; [exact E|]. rewrite N. reflexivity.
Defined.

(** C6 as stated fails: the toy object is constructed with [pop_size = 2]
    and [n_grad = 3] without any error, and [learn] raises [IndexError] in
    its second generation, after 4 environment steps. *)
Lemma oversized_n_grad_accepted :
  pop_size (Toy.hyper 3 0) < n_grad (Toy.hyper 3 0) /\
  init (C := Toy.collab) (Toy.hyper 3 0) true Toy.w0 = inr (Toy.hyper 3 0, Toy.self0) /\
  exists s,
    learn (C := Toy.collab) (Toy.hyper 3 0) 10 100 None (-1) 5 Toy.self0
      = Raise IndexError s /\
    num_timesteps s = 4.
Proof.
  split; [reflexivity|]. split; [reflexivity|].
  eexists. split; [vm_compute; reflexivity|reflexivity].
Qed.

(** C6, as the code has it: construction never inspects [n_grad] (it
    succeeds or fails exactly as with any other [n_grad]), so [n_grad >
    pop_size] is not rejected there; a population shorter than [n_grad] is
    discovered in the gradient phase, which then always raises, and with it
    the body of the first generation that has [num_timesteps > 0].  When
    [policy_freq <> 0] the phase trains every member there is and raises
    [IndexError] on the first missing slot; in general the exception is
    [IndexError] or, only when [policy_freq = 0], the [ZeroDivisionError] of
    [it % policy_freq]. *)
Theorem n_grad_checked_by_indexing (C : Collab) (h : Hyper) :
  (forall n b w0,
     init (C := C) (set_n_grad n h) b w0 =
     match init h b w0 with
     | inl e => inl e
     | inr (_, s) => inr (set_n_grad n h, s)
     end) /\
  (forall steps (s : Self C),
     policy_freq h <> 0 ->
     Z.of_nat (length (es_params s)) < n_grad h ->
     exists new s',
       gradient_phase h steps s = Raise IndexError s' /\
       trace s' = trace s ++ new /\
       length (params_returned new) = length (es_params s) /\
       (forall fuel ef ne l,
          0 < num_timesteps s -> actor_steps l = steps ->
          generation_body h fuel ef ne l s = Raise IndexError s')) /\
  (forall steps (s : Self C),
     Z.of_nat (length (es_params s)) < n_grad h ->
     exists e s',
       gradient_phase h steps s = Raise e s' /\
       (e = IndexError \/ (e = ZeroDivisionError /\ policy_freq h = 0)) /\
       (forall fuel ef ne l,
          0 < num_timesteps s -> actor_steps l = steps ->
          generation_body h fuel ef ne l s = Raise e s')).
Proof.
  split; [|split].
  - intros n b w0. unfold init, _setup_model. simpl.
    destruct (td3_init C _ w0) as [w1|]; [|reflexivity].
    destruct b; [|reflexivity].
    destruct (td3_setup_model C w1) as [w2|]; [|reflexivity].
    destruct (cem_new C _ w2); reflexivity.
  - intros steps s Hpf Hn.
    destruct (gradient_phase_overrun h steps s Hpf Hn) as (new & s' & E & T & L).
    exists new, s'. split; [exact E|]. split; [exact T|]. split; [exact L|].
    intros fuel ef ne l Hpos Hl. unfold generation_body.
    apply bind_Raise. rewrite maybe_gradient_phase_spec.
    apply Z.ltb_lt in Hpos. rewrite Hpos, Hl. exact E.
  - intros steps s Hn.
    destruct (gradient_phase_fails h steps s Hn) as (e & s' & E & G).
    exists e, s'. split; [exact E|]. split; [exact G|].
    intros fuel ef ne l Hpos Hl. unfold generation_body.
    apply bind_Raise. rewrite maybe_gradient_phase_spec.
    apply Z.ltb_lt in Hpos. rewrite Hpos, Hl. exact E.
Qed.

(** On the toy instance, two candidates and [n_grad = 3]: the gradient phase
    trains both and raises; with [policy_freq = 0] it raises as well. *)
Lemma n_grad_checked_by_indexing_witness :
  (exists (new : list (Event Toy.collab)) s',
     gradient_phase (C := Toy.collab) (Toy.hyper 3 0) 4
       (@mkSelf Toy.collab Toy.w0 4 [10; 20] [] []) = Raise IndexError s' /\
     length (params_returned new) = 2%nat) /\
  (exists e s',
     gradient_phase (C := Toy.collab) (set_policy_freq 0 (Toy.hyper 3 0)) 4
       (@mkSelf Toy.collab Toy.w0 4 [10; 20] [] []) = Raise e s' /\
     (e = IndexError \/ e = ZeroDivisionError)).
Proof.
  split.
  - destruct (proj1 (proj2 (n_grad_checked_by_indexing Toy.collab (Toy.hyper 3 0))) 4
                (@mkSelf Toy.collab Toy.w0 4 [10; 20] [] []))
      as (new & s' & E & _ & L & _).
    + discriminate.
    + reflexivity.
    + exists new, s'. split; [exact E|exact L].
  - destruct (proj2 (proj2 (n_grad_checked_by_indexing Toy.collab
                              (set_policy_freq 0 (Toy.hyper 3 0)))) 4
                (@mkSelf Toy.collab Toy.w0 4 [10; 20] [] []))
      as (e & s' & E & [G|[G _]] & _).
    + reflexivity.
    + exists e, s'. split; [exact E|left; exact G].
    + exists e, s'. split; [exact E|right; exact G].
Defined.

(** C7: the periodic evaluation runs exactly when
    [0 < eval_freq <= timesteps_since_eval]; when it runs, the counter becomes
    its old value modulo [eval_freq] (so it lies in [0, eval_freq)), and the
    actor is loaded with the strategy's mean before [evaluate_policy] is
    called; when it does not run, nothing is called and nothing changes. *)
Theorem evaluation_trigger (C : Collab) (h : Hyper)
    (eval_freq n_eval_episodes timesteps_since_eval : Z) (evaluations : list Q)
    (s : Self C) :
  exists tse' evaluations' s',
    eval_phase h eval_freq n_eval_episodes timesteps_since_eval evaluations s
      = Ok (tse', evaluations') s' /\
    (0 < eval_freq <= timesteps_since_eval ->
       tse' = timesteps_since_eval mod eval_freq /\ 0 <= tse' < eval_freq /\
       exists mean_reward prints,
         evaluate_policy C n_eval_episodes
           (actor_load_from_vector C (es_mu C (world s)) (world s))
           = (mean_reward, world s') /\
         trace s' = trace s ++
           [EvLoadActor (es_mu C (world s)); EvEvaluate n_eval_episodes mean_reward] ++ prints /\
         prints = (if 0 <? verbose h
                   then [EvPrintEval (num_timesteps s) mean_reward; EvPrintFPS] else []) /\
         evaluations' = evaluations ++ [mean_reward]) /\
    (~ (0 < eval_freq <= timesteps_since_eval) ->
       tse' = timesteps_since_eval /\ evaluations' = evaluations /\ s' = s).
Proof.
  unfold eval_phase.
  destruct (Z.ltb_spec 0 eval_freq) as [H0|H0];
    [destruct (Z.leb_spec eval_freq timesteps_since_eval) as [H1|H1]|]; simpl.
  - unfold bind at 1. unfold py_mod.
    assert (E : (eval_freq =? 0) = false) by (apply Z.eqb_neq; lia). rewrite E.
    unfold ret at 1. unfold bind at 1. unfold load_mu, call_.
    unfold bind at 1. unfold call. simpl.
    destruct (evaluate_policy C n_eval_episodes
                (actor_load_from_vector C (es_mu C (world s)) (world s))) as [mean w] eqn:Ev.
    unfold print_eval. destruct (0 <? verbose h); simpl.
    + do 3 eexists. split; [reflexivity|]. split; [|intros Hc; lia].
      intros _. split; [reflexivity|]. split; [apply Z.mod_pos_bound; lia|].
      exists mean. eexists. split; [reflexivity|]. simpl.
      rewrite <- !app_assoc. repeat split.
    + do 3 eexists. split; [reflexivity|]. split; [|intros Hc; lia].
      intros _. split; [reflexivity|]. split; [apply Z.mod_pos_bound; lia|].
      exists mean. eexists. split; [reflexivity|]. simpl.
      rewrite <- !app_assoc. repeat split.
  - do 3 eexists. split; [reflexivity|]. split; [intros Hc; lia|]. repeat split.
  - do 3 eexists. split; [reflexivity|]. split; [intros Hc; lia|]. repeat split.
Qed.

(** C8: when [action_noise_std > 0], a step draws Gaussian noise of standard
    deviation [action_noise_std], adds it to the selected, unscaled action,
    clips the sum componentwise to [-1, 1], and only then multiplies by
    [max_action] for [env.step]; the action before rescaling (also the one
    stored in the replay buffer) has every component in [-1, 1]. *)
Theorem noisy_action_clipped (C : Collab) (h : Hyper) obs r t (s : Self C) res s' :
  (0 < action_noise_std h)%Q ->
  rollout_step h obs r t s = Ok res s' ->
  exists raw w1 noise w2 noisy ret flag,
    (if num_timesteps s <? start_timesteps h
     then action_space_sample C (world s) else select_action C obs (world s)) = (raw, w1) /\
    random_normal C 0 (action_noise_std h) (action_space_shape0 C) w1 = (noise, w2) /\
    broadcast_add raw noise = Some noisy /\
    (length raw = length noise -> noisy = zip_with Qplus raw noise) /\
    trace s' = trace s ++
      [(if num_timesteps s <? start_timesteps h
        then EvActionSample raw else EvSelectAction obs raw);
       EvNormal 0 (action_noise_std h) (action_space_shape0 C) noise;
       EvStep (map (Qmult (max_action C)) (map (clip (-1) 1) noisy)) ret;
       EvAdd obs (fst (fst ret)) (map (clip (-1) 1) noisy) (snd (fst ret)) flag] /\
    Forall (fun x => (-1 <= x <= 1)%Q) (map (clip (-1) 1) noisy) /\
    (forall x, (x < -1 -> clip (-1) 1 x == -1) /\ (-1 <= x <= 1 -> clip (-1) 1 x == x) /\
               (1 < x -> clip (-1) 1 x == 1))%Q.
Proof.
  intros Hn H. apply rollout_step_inv in H
    as (a0 & s1 & a1 & s2 & new_obs & reward & done & w3 & Hc & Hp & He & -> & ->).
  apply (perturb_noisy h a0 s1 a1 s2 Hn) in Hp as (noise & w2 & noisy & Hr & Hb & -> & ->).
  apply choose_action_spec in Hc as (w1 & Hc).
  exists a0, w1, noise, w2, noisy, (new_obs, reward, done),
    (done_flag (env_max_episode_steps C w3) t done).
  assert (Hsel : (if num_timesteps s <? start_timesteps h
                  then action_space_sample C (world s) else select_action C obs (world s))
                 = (a0, w1) /\
                 s1 = log (if num_timesteps s <? start_timesteps h
                           then EvActionSample a0 else EvSelectAction obs a0) (set_world w1 s)).
  { destruct Hc as [(Hlt & E & ->)|(Hge & E & ->)].
    - apply Z.ltb_lt in Hlt. rewrite Hlt. split; [exact E|reflexivity].
    - apply Z.ltb_ge in Hge. rewrite Hge. split; [exact E|reflexivity]. }
  destruct Hsel as [Hsel ->]. simpl in Hr.
  split; [exact Hsel|]. split; [exact Hr|]. split; [exact Hb|]. split.
  { intros Hl. unfold broadcast_add in Hb. apply Nat.eqb_eq in Hl. rewrite Hl in Hb.
    congruence. }
  split; [simpl; rewrite <- !app_assoc; reflexivity|]. split.
  { apply Forall_forall. intros x Hx. apply list_elem_of_In, in_map_iff in Hx as (y & <- & _).
    apply clip_bounds. }
  apply clip_cases.
Qed.

(** A warm-up step of the toy environment with [action_noise_std = 0.1]:
    the sampled action 3 plus the noise 1/4 is clipped to 1. *)
Lemma noisy_action_clipped_witness :
  (0 < action_noise_std (Toy.hyper 1 (1 # 10)))%Q /\
  exists res s',
    rollout_step (C := Toy.collab) (Toy.hyper 1 (1 # 10)) 0 0%Q 0 Toy.self0 = Ok res s' /\
    exists raw noise noisy,
      broadcast_add raw noise = Some noisy /\
      Forall (fun x => (-1 <= x <= 1)%Q) (map (clip (-1) 1) noisy).
Proof.
  split; [reflexivity|].
  eassert (E : rollout_step (C := Toy.collab) (Toy.hyper 1 (1 # 10)) 0 0%Q 0 Toy.self0
               = Ok _ _); [vm_compute; reflexivity|].
  eexists _, _. split; [exact E|].
  destruct (noisy_action_clipped Toy.collab (Toy.hyper 1 (1 # 10)) _ _ _ _ _ _
              eq_refl E)
    as (raw & w1 & noise & w2 & noisy & ret & flag & _ & _ & Hb & _ & _ & HF & _).
  exists raw, noise, noisy. split; assumption.
Defined.



(** C10: [save] and [load] normalise the path in the same way: both append
    ".pth" exactly when the path does not already end with ".pth" and leave
    it unchanged otherwise, so [load p] reads the file that [save p] wrote. *)
Theorem save_load_same_file (C : Collab) (p : string) :
  exists target,
    (forall s : Self C, exists s',
       save p s = Ok tt s' /\ trace s' = trace s ++ [EvSave target] /\
       world s' = th_save C target (world s)) /\
    (forall env (s : Self C), exists s',
       load p env s = Ok tt s' /\ trace s' = trace s ++ [EvLoad target; EvCreateAliases] /\
       world s' = create_aliases C (th_load C target (world s))) /\
    ((exists pre, p = (pre ++ ".pth")%string) -> target = p) /\
    (~ (exists pre, p = (pre ++ ".pth")%string) -> target = (p ++ ".pth")%string) /\
    (target = p <-> exists pre, p = (pre ++ ".pth")%string) /\
    (exists pre, target = (pre ++ ".pth")%string).
Proof.
  exists (if negb (endswith p ".pth") then (p ++ ".pth")%string else p).
  split; [|split].
  - intros s. eexists. unfold save, call_. split; [reflexivity|]. split; reflexivity.
  - intros env s. eexists. unfold load, bind, call_, ret.
    destruct env; (split; [reflexivity|]); simpl; rewrite <- app_assoc; split; reflexivity.
  - pose proof (endswith_spec p ".pth") as Hs.
    destruct (endswith p ".pth"); simpl.
    + assert (He : exists pre, p = (pre ++ ".pth")%string) by (apply Hs; reflexivity).
      split; [reflexivity|]. split; [tauto|]. split; [tauto|exact He].
    + assert (Hn : ~ exists pre, p = (pre ++ ".pth")%string).
      { intros He. apply Hs in He. discriminate. }
      split; [tauto|]. split; [reflexivity|]. split.
      * split; [|tauto]. intros E. exfalso. eapply append_neq_self; [|exact E]. discriminate.
      * exists p. reflexivity.
Qed.

(** ** Lifting a property of the phases to the whole loop *)

Section Lift.

Context {C : Collab}.
Variable h : Hyper.
Variable cb : option (Callback C).
Variables ef ne : Z.
Variable R : Self C -> Self C -> Prop.

Hypothesis R_refl : forall s, R s s.
Hypothesis R_trans : forall s1 s2 s3, R s1 s2 -> R s2 s3 -> R s1 s3.
Hypothesis R_ask : forall s, R s (after_ask h s).
Hypothesis R_callback : forall l, respects R (callback_phase cb l).
Hypothesis R_gradient : forall a, respects R (gradient_phase h a).
Hypothesis R_eval : forall tse evs, respects R (eval_phase h ef ne tse evs).
Hypothesis R_load :
  forall p, respects R (call_ (actor_load_from_vector C p) (EvLoadActor p)).
Hypothesis R_reset : respects R (call (env_reset C) EvReset).
Hypothesis R_print : forall en et er, respects R (print_episode h en et er).
Hypothesis R_fitness : forall r, respects R (append_fitness r).
Hypothesis R_step : forall obs r t, respects R (rollout_step h obs r t).
Hypothesis R_tell : respects R tell_phase.

Lemma lift_episode_loop fuel obs r t : respects R (episode_loop h fuel obs r t).
Proof.
  revert obs r t. induction fuel as [|fuel IH]; intros obs r t; simpl.
  - apply respects_timeout.
  - apply (respects_bind _ R_trans); [apply R_step|intros [[[new_obs r'] t'] done]].
    destruct done; [apply (respects_ret _ R_refl)|apply IH].
Qed.

Lemma lift_run_episode fuel a en : respects R (run_episode h fuel a en).
Proof.
  unfold run_episode.
  apply (respects_bind _ R_trans); [apply R_reset|intros obs].
  apply (respects_bind _ R_trans); [apply lift_episode_loop|intros [er et]].
  apply (respects_bind _ R_trans); [apply R_print|intros _].
  apply (respects_bind _ R_trans); [apply R_fitness|intros _].
  apply (respects_ret _ R_refl).
Qed.

Lemma lift_rollout_loop fuel pop a en : respects R (rollout_loop h fuel pop a en).
Proof.
  revert a en. induction pop as [|p pop IH]; intros a en; simpl.
  - apply (respects_ret _ R_refl).
  - apply (respects_bind _ R_trans); [|intros [a' en']; apply IH].
    unfold rollout_candidate.
    apply (respects_bind _ R_trans); [apply R_load|intros _; apply lift_run_episode].
Qed.

Lemma lift_rollout_phase fuel en : respects R (rollout_phase h fuel en).
Proof.
  unfold rollout_phase.
  apply (respects_bind _ R_trans);
    [apply (respects_get_es_params _ R_refl)|intros pop; apply lift_rollout_loop].
Qed.

Lemma lift_generation_body fuel l : respects R (generation_body h fuel ef ne l).
Proof.
  unfold generation_body.
  apply (respects_bind _ R_trans); [|intros _].
  { unfold maybe_gradient_phase.
    apply (respects_bind _ R_trans);
      [apply (respects_get_num_timesteps _ R_refl)|intros nt].
    destruct (0 <? nt); [apply R_gradient|apply (respects_ret _ R_refl)]. }
  apply (respects_bind _ R_trans); [apply R_eval|intros [tse evs]].
  apply (respects_bind _ R_trans); [apply lift_rollout_phase|intros [a en]].
  apply (respects_bind _ R_trans); [apply R_tell|intros _].
  apply (respects_ret _ R_refl).
Qed.

Lemma lift_generation fuel l : respects R (generation h fuel cb ef ne l).
Proof.
  unfold generation.
  apply (respects_bind _ R_trans); [|intros _].
  { intros s a s' H. rewrite ask_phase_spec in H. injection H as <- <-. apply R_ask. }
  apply (respects_bind _ R_trans); [apply R_callback|intros stop].
  destruct stop; [apply (respects_ret _ R_refl)|].
  apply (respects_bind _ R_trans); [apply lift_generation_body|intros l'].
  apply (respects_ret _ R_refl).
Qed.

Lemma lift_learn_loop fuel total l : respects R (learn_loop h fuel total cb ef ne l).
Proof.
  revert l. induction fuel as [|fuel IH]; intros l; simpl.
  - apply respects_timeout.
  - apply (respects_bind _ R_trans);
      [apply (respects_get_num_timesteps _ R_refl)|intros nt].
    destruct (nt <? total); [|apply (respects_ret _ R_refl)].
    apply (respects_bind _ R_trans); [apply lift_generation|intros [|l']].
    + apply (respects_ret _ R_refl).
    + apply IH.
Qed.

End Lift.

(** ** Phases that make no environment step *)

Section QuietPhases.

Context {C : Collab}.
Variable h : Hyper.

Lemma quiet_refl (s : Self C) : quiet s s.
Proof. split; [reflexivity|]. exists []. rewrite app_nil_r. split; reflexivity. Qed.

Lemma quiet_trans (s1 s2 s3 : Self C) : quiet s1 s2 -> quiet s2 s3 -> quiet s1 s3.
Proof.
  intros [N1 (n1 & T1 & F1)] [N2 (n2 & T2 & F2)]. split; [congruence|].
  exists (n1 ++ n2). rewrite T2, T1, <- app_assoc, forallb_app, F1, F2.
  split; reflexivity.
Qed.

Lemma evolves_quiet (P : Event C -> bool) kp (s s' : Self C) :
  (forall e, P e = true -> episode_event e = false) ->
  evolves P kp true s s' -> quiet s s'.
Proof.
  intros HP [(new & T & F) (_ & N & _)]. split; [apply N; reflexivity|].
  exists new. split; [exact T|]. rewrite forallb_forall in *.
  intros e He. unfold outside_episode. rewrite (HP e (F e He)). reflexivity.
Qed.

Lemma respects_quiet (P : Event C -> bool) kp {A} (c : M C A) :
  (forall e, P e = true -> episode_event e = false) ->
  respects (C := C) (evolves P kp true) c -> respects (C := C) quiet c.
Proof.
  intros HP Hc. eapply respects_weaken; [|exact Hc].
  intros s s'. apply evolves_quiet, HP.
Qed.

Lemma ask_quiet (s : Self C) : quiet s (after_ask h s).
Proof.
  split; [reflexivity|]. eexists. split; [reflexivity|]. reflexivity.
Qed.

Lemma callback_quiet cb l : respects (C := C) quiet (callback_phase cb l).
Proof.
  apply (respects_quiet is_callback true); [no_step|apply callback_phase_evolves].
Qed.

Lemma gradient_quiet a : respects (C := C) quiet (gradient_phase h a).
Proof.
  apply (respects_quiet gradient_event false); [no_step|apply gradient_phase_evolves].
Qed.

Lemma eval_quiet ef ne tse evs : respects (C := C) quiet (eval_phase h ef ne tse evs).
Proof.
  apply (respects_quiet eval_event true); [no_step|apply eval_phase_evolves].
Qed.

Lemma tell_quiet : respects (C := C) quiet tell_phase.
Proof.
  apply (respects_quiet is_tell true); [no_step|apply tell_phase_evolves].
Qed.

Lemma load_quiet p :
  respects (C := C) quiet (call_ (actor_load_from_vector C p) (EvLoadActor p)).
Proof.
  apply (respects_quiet outside_episode true).
  - intros e. unfold outside_episode. destruct (episode_event e); simpl; congruence.
  - apply respects_call_. reflexivity.
Qed.

Lemma reset_quiet : respects (C := C) quiet (call (env_reset C) EvReset).
Proof.
  apply (respects_quiet outside_episode true).
  - intros e. unfold outside_episode. destruct (episode_event e); simpl; congruence.
  - apply respects_call. reflexivity.
Qed.

Lemma print_episode_quiet en et er : respects (C := C) quiet (print_episode h en et er).
Proof.
  apply (respects_quiet outside_episode true).
  - intros e. unfold outside_episode. destruct (episode_event e); simpl; congruence.
  - unfold print_episode. destruct (1 <? verbose h); [|ev_prim].
    ev_bind; ev_prim.
Qed.

Lemma append_fitness_quiet r : respects (C := C) quiet (append_fitness r).
Proof.
  apply (respects_quiet outside_episode true).
  - intros e. unfold outside_episode. destruct (episode_event e); simpl; congruence.
  - apply respects_append_fitness.
Qed.

(** A relation that holds across every quiet stretch and across every step
    of an episode holds across [learn]. *)
Lemma lift_quiet (R : Self C -> Self C -> Prop) cb ef ne fuel total l :
  (forall s, R s s) ->
  (forall s1 s2 s3, R s1 s2 -> R s2 s3 -> R s1 s3) ->
  (forall s s', quiet s s' -> R s s') ->
  (forall obs r t, respects R (rollout_step h obs r t)) ->
  respects R (learn_loop h fuel total cb ef ne l).
Proof.
  intros Rr Rt Rq Rs. apply lift_learn_loop; try assumption.
  - intros s. apply Rq, ask_quiet.
  - intros l0. eapply respects_weaken; [exact Rq|apply callback_quiet].
  - intros a. eapply respects_weaken; [exact Rq|apply gradient_quiet].
  - intros tse evs. eapply respects_weaken; [exact Rq|apply eval_quiet].
  - intros p. eapply respects_weaken; [exact Rq|apply load_quiet].
  - eapply respects_weaken; [exact Rq|apply reset_quiet].
  - intros en et er. eapply respects_weaken; [exact Rq|apply print_episode_quiet].
  - intros r. eapply respects_weaken; [exact Rq|apply append_fitness_quiet].
  - eapply respects_weaken; [exact Rq|apply tell_quiet].
Qed.

End QuietPhases.

(** ** Counting over a whole run *)

Section Counting.

Context {C : Collab}.
Variable h : Hyper.

Lemma replay_adds_app (t1 t2 : list (Event C)) :
  replay_adds (t1 ++ t2) = replay_adds t1 + replay_adds t2.
Proof.
  induction t1 as [|e t1 IH]; simpl; [reflexivity|].
  destruct e; rewrite ?IH; lia.
Qed.

Lemma env_steps_nonneg (t : list (Event C)) : 0 <= env_steps t.
Proof. induction t as [|e t IH]; simpl; [lia|]. destruct e; lia. Qed.

Lemma outside_no_step_no_add (t : list (Event C)) :
  forallb outside_episode t = true -> env_steps t = 0 /\ replay_adds t = 0.
Proof.
  induction t as [|e t IH]; simpl; [split; reflexivity|].
  rewrite andb_true_iff. intros [He Ht]. unfold outside_episode in He.
  destruct e; simpl in He; try discriminate; apply IH, Ht.
Qed.

Lemma selection_no_step_no_add (t : list (Event C)) :
  forallb selection_event t = true -> env_steps t = 0 /\ replay_adds t = 0.
Proof.
  induction t as [|e t IH]; simpl; [split; reflexivity|].
  rewrite andb_true_iff. intros [He Ht].
  destruct e; simpl in He; try discriminate; apply IH, Ht.
Qed.

Lemma stored_once_refl (s : Self C) : stored_once s s.
Proof. exists []. rewrite app_nil_r. simpl. repeat split; lia. Qed.

Lemma stored_once_trans (s1 s2 s3 : Self C) :
  stored_once s1 s2 -> stored_once s2 s3 -> stored_once s1 s3.
Proof.
  intros (n1 & T1 & N1 & A1 & P1) (n2 & T2 & N2 & A2 & P2). exists (n1 ++ n2).
  rewrite T2, T1, <- app_assoc, env_steps_app, replay_adds_app.
  repeat split; lia.
Qed.

Lemma quiet_stored_once (s s' : Self C) : quiet s s' -> stored_once s s'.
Proof.
  intros [N (new & T & F)]. exists new.
  destruct (outside_no_step_no_add new F) as [E A]. rewrite E, A.
  repeat split; [exact T|lia|lia].
Qed.

Lemma rollout_step_stored_once obs r t :
  respects (C := C) stored_once (rollout_step h obs r t).
Proof.
  intros s res s' H.
  pose proof (rollout_step_accounted h _ _ _ _ _ _ H) as [N _].
  apply rollout_step_trace in H
    as (pre & action & no & rw & d & w2 & w & _ & _ & T & F & _).
  destruct (selection_no_step_no_add pre F) as [E A].
  eexists. split; [exact T|].
  rewrite !env_steps_app, !replay_adds_app, E, A. simpl. repeat split; lia.
Qed.

Lemma learn_loop_stored_once fuel total cb ef ne l :
  respects (C := C) stored_once (learn_loop h fuel total cb ef ne l).
Proof.
  apply lift_quiet.
  - apply stored_once_refl.
  - apply stored_once_trans.
  - apply quiet_stored_once.
  - apply rollout_step_stored_once.
Qed.

End Counting.

(** ** The warm-up *)

Section WarmUp.

Context {C : Collab}.
Variable h : Hyper.

Lemma warm_up_refl (s : Self C) : warm_up h s s.
Proof.
  split; [lia|]. exists []. rewrite app_nil_r. split; [reflexivity|]. reflexivity.
Qed.

Lemma warm_up_trans (s1 s2 s3 : Self C) :
  warm_up h s1 s2 -> warm_up h s2 s3 -> warm_up h s1 s3.
Proof.
  intros [N1 (n1 & T1 & W1)] [N2 (n2 & T2 & W2)]. split; [lia|].
  exists (n1 ++ n2). rewrite T2, T1, <- app_assoc. split; [reflexivity|].
  intros Hs. rewrite existsb_app, W1, W2 by lia. reflexivity.
Qed.

Lemma quiet_warm_up (s s' : Self C) : quiet s s' -> warm_up h s s'.
Proof.
  intros [N (new & T & F)]. split; [lia|]. exists new. split; [exact T|].
  intros _. apply (existsb_none outside_episode); [|exact F].
  intros e. unfold outside_episode. destruct e; simpl; congruence.
Qed.

Lemma perturb_no_select a (s : Self C) a' s' :
  perturb h a s = Ok a' s' ->
  num_timesteps s' = num_timesteps s /\
  exists new, trace s' = trace s ++ new /\ existsb is_select_action new = false.
Proof.
  intros H. destruct (Qlt_le_dec 0 (action_noise_std h)) as [Hn|Hn].
  - apply (perturb_noisy h a s a' s' Hn) in H as (noise & w & noisy & _ & _ & _ & ->).
    split; [reflexivity|]. eexists. split; reflexivity.
  - rewrite perturb_quiet in H by (apply Qle_not_lt, Hn). injection H as <- <-.
    split; [reflexivity|]. exists []. rewrite app_nil_r. split; reflexivity.
Qed.

Lemma rollout_step_warm_up obs r t :
  respects (C := C) (warm_up h) (rollout_step h obs r t).
Proof.
  intros s res s' H. apply rollout_step_inv in H
    as (a0 & s1 & a1 & s2 & new_obs & reward & done & w3 & Hc & Hp & He & -> & ->).
  apply perturb_no_select in Hp as (N2 & n2 & T2 & X2).
  apply choose_action_spec in Hc as (w & Hc). simpl.
  destruct Hc as [(Hlt & _ & ->)|(Hge & _ & ->)]; unfold warm_up; simpl in *.
  - split; [lia|]. eexists. rewrite T2, <- !app_assoc. split; [reflexivity|].
    intros _. simpl. rewrite existsb_app, X2. reflexivity.
  - split; [lia|]. eexists. rewrite T2, <- !app_assoc. split; [reflexivity|].
    intros Hs. lia.
Qed.

Lemma learn_loop_warm_up fuel total cb ef ne l :
  respects (C := C) (warm_up h) (learn_loop h fuel total cb ef ne l).
Proof.
  apply lift_quiet.
  - apply warm_up_refl.
  - apply warm_up_trans.
  - apply quiet_warm_up.
  - apply rollout_step_warm_up.
Qed.

End WarmUp.

(** ** Runs without periodic evaluation *)

Section NoEvaluation.

Context {C : Collab}.
Variable h : Hyper.

Lemma never_evaluates_refl (s : Self C) : never_evaluates s s.
Proof. exists []. rewrite app_nil_r. split; reflexivity. Qed.

Lemma never_evaluates_trans (s1 s2 s3 : Self C) :
  never_evaluates s1 s2 -> never_evaluates s2 s3 -> never_evaluates s1 s3.
Proof.
  intros (n1 & T1 & X1) (n2 & T2 & X2). exists (n1 ++ n2).
  rewrite T2, T1, <- app_assoc, existsb_app, X1, X2. split; reflexivity.
Qed.

Lemma evolves_never_evaluates (P : Event C -> bool) kp kn {A} (c : M C A) :
  (forall e, P e = true -> is_evaluate e = false) ->
  respects (C := C) (evolves P kp kn) c -> respects (C := C) never_evaluates c.
Proof.
  intros HP Hc. eapply respects_weaken; [|exact Hc].
  intros s s' [(new & T & F) _]. exists new. split; [exact T|].
  apply (existsb_none P); assumption.
Qed.

Ltac not_eval := let e := fresh in
  intros e; unfold not_evaluate; destruct e; simpl; congruence.

Lemma learn_loop_never_evaluates fuel total cb ef ne l :
  ef <= 0 ->
  respects (C := C) never_evaluates (learn_loop h fuel total cb ef ne l).
Proof.
  intros Hef. apply lift_learn_loop.
  - apply never_evaluates_refl.
  - apply never_evaluates_trans.
  - intros s. eexists. split; reflexivity.
  - intros l0. apply (evolves_never_evaluates is_callback true true);
      [not_eval|apply callback_phase_evolves].
  - intros a. apply (evolves_never_evaluates gradient_event false true);
      [not_eval|apply gradient_phase_evolves].
  - intros tse evs s r s'. unfold eval_phase.
    assert (E : (0 <? ef) = false) by (apply Z.ltb_ge; lia). rewrite E. simpl.
    intros H. injection H as <- <-. apply never_evaluates_refl.
  - intros p. apply (evolves_never_evaluates not_evaluate true true);
      [not_eval|apply respects_call_; reflexivity].
  - apply (evolves_never_evaluates not_evaluate true true);
      [not_eval|apply respects_call; reflexivity].
  - intros en et er. apply (evolves_never_evaluates not_evaluate true true); [not_eval|].
    unfold print_episode. destruct (1 <? verbose h); [|ev_prim]. ev_bind; ev_prim.
  - intros r. apply (evolves_never_evaluates not_evaluate true true);
      [not_eval|apply respects_append_fitness].
  - intros obs r t. apply (evolves_never_evaluates episode_event true false);
      [not_eval|apply rollout_step_evolves].
  - apply (evolves_never_evaluates is_tell true true);
      [not_eval|apply tell_phase_evolves].
Qed.

End NoEvaluation.

(** ** Who writes the fitness list *)

Section Fitness.

Context {C : Collab}.
Variable h : Hyper.

Lemma kf_refl (s : Self C) : keeps_fitnesses s s.
Proof. reflexivity. Qed.

Lemma kf_trans (s1 s2 s3 : Self C) :
  keeps_fitnesses s1 s2 -> keeps_fitnesses s2 s3 -> keeps_fitnesses s1 s3.
Proof. unfold keeps_fitnesses. congruence. Qed.

Lemma kf_call {A} (f : World C -> A * World C) ev :
  respects (C := C) keeps_fitnesses (call f ev).
Proof.
  intros s a s'. unfold call. destruct (f (world s)) as [a' w].
  intros H; injection H as <- <-. reflexivity.
Qed.

Lemma kf_call_ (f : World C -> World C) ev :
  respects (C := C) keeps_fitnesses (call_ f ev).
Proof. intros s a s' H. injection H as <- <-. reflexivity. Qed.

Lemma kf_query {A} (f : World C -> A) ev :
  respects (C := C) keeps_fitnesses (query f ev).
Proof. intros s a s' H. injection H as <- <-. reflexivity. Qed.

Lemma kf_emit e : respects (C := C) keeps_fitnesses (emit e).
Proof. intros s a s' H. injection H as <- <-. reflexivity. Qed.

Lemma kf_incr : respects (C := C) keeps_fitnesses incr_num_timesteps.
Proof. intros s a s' H. injection H as <- <-. reflexivity. Qed.

Lemma kf_es_params_set i v : respects (C := C) keeps_fitnesses (es_params_set i v).
Proof.
  intros s a s'. unfold es_params_set.
  destruct (Z.to_nat i <? length (es_params s))%nat; [|discriminate].
  intros H; injection H as <- <-. reflexivity.
Qed.

Ltac kf_bind := apply (respects_bind _ kf_trans); [|intros ?].
Ltac kf_prim :=
  first
    [ apply (respects_ret _ kf_refl)
    | apply (respects_raise _)
    | apply (respects_timeout _)
    | apply (respects_py_mod _ kf_refl)
    | apply (respects_py_floordiv _ kf_refl)
    | apply (respects_get_num_timesteps _ kf_refl)
    | apply (respects_get_es_params _ kf_refl)
    | apply (respects_es_params_get _ kf_refl)
    | apply (respects_compute_done_bool _ kf_refl)
    | apply (respects_np_add _ kf_refl)
    | apply kf_call
    | apply kf_call_
    | apply kf_query
    | apply kf_emit
    | apply kf_incr
    | apply kf_es_params_set ].

Lemma gradient_phase_keeps_fitnesses a :
  respects (C := C) keeps_fitnesses (gradient_phase h a).
Proof.
  apply (respects_for_each _ kf_refl kf_trans). intros i. unfold gradient_member.
  do 6 (kf_bind; [kf_prim|]). kf_bind; [|kf_bind; kf_prim].
  apply (respects_for_each _ kf_refl kf_trans). intros it. unfold train_iteration.
  do 3 (kf_bind; [kf_prim|]). destruct (_ =? 0); kf_prim.
Qed.

Lemma eval_phase_keeps_fitnesses ef ne tse evs :
  respects (C := C) keeps_fitnesses (eval_phase h ef ne tse evs).
Proof.
  unfold eval_phase. destruct (_ && _); [|kf_prim].
  kf_bind; [kf_prim|]. kf_bind.
  { intros s0 r0 s1. unfold load_mu. apply kf_call_. }
  kf_bind; [kf_prim|]. kf_bind; [|kf_prim].
  unfold print_eval. destruct (0 <? verbose h); [|kf_prim].
  kf_bind; [kf_prim|]. kf_bind; kf_prim.
Qed.

Lemma rollout_step_keeps_fitnesses obs r t :
  respects (C := C) keeps_fitnesses (rollout_step h obs r t).
Proof.
  unfold rollout_step. kf_bind.
  { unfold choose_action. kf_bind; [kf_prim|]. destruct (_ <? _); kf_prim. }
  kf_bind.
  { unfold perturb. destruct (negb _); [|kf_prim]. do 2 (kf_bind; [kf_prim|]). kf_prim. }
  apply (respects_bind _ kf_trans); [kf_prim|intros [[new_obs reward] done]].
  do 3 (kf_bind; [kf_prim|]). kf_prim.
Qed.

Lemma episode_loop_keeps_fitnesses fuel obs r t :
  respects (C := C) keeps_fitnesses (episode_loop h fuel obs r t).
Proof.
  revert obs r t. induction fuel as [|fuel IH]; intros obs r t; simpl; [kf_prim|].
  apply (respects_bind _ kf_trans);
    [apply rollout_step_keeps_fitnesses|intros [[[new_obs r'] t'] done]].
  destruct done; [kf_prim|apply IH].
Qed.

End Fitness.

(** ** Episodes *)

Section Episodes.

Context {C : Collab}.
Variable h : Hyper.

Lemma rewards_app (t1 t2 : list (Event C)) : rewards (t1 ++ t2) = rewards t1 ++ rewards t2.
Proof.
  induction t1 as [|e t1 IH]; simpl; [reflexivity|].
  destruct e as [| | | | | | | | | | | | | | | |a [[o r] d]| | | | | |];
    simpl; rewrite ?IH; reflexivity.
Qed.

Lemma selection_no_rewards (t : list (Event C)) :
  forallb selection_event t = true -> rewards t = [].
Proof.
  induction t as [|e t IH]; simpl; [reflexivity|].
  rewrite andb_true_iff. intros [He Ht].
  destruct e; simpl in He; try discriminate; apply IH, Ht.
Qed.

(** The log of an episode: the loop goes on while [env.step] returns a false
    done signal and stops at the first true one; the returned reward is the
    running sum of the rewards, the returned counter the number of steps. *)
Lemma episode_loop_log fuel obs r t (s : Self C) r' t' s' :
  episode_loop h fuel obs r t s = Ok (r', t') s' ->
  exists new n, trace s' = trace s ++ new /\
    raw_dones new = repeat false n ++ [true] /\
    t' = t + Z.of_nat n + 1 /\
    r' = fold_left Qplus (rewards new) r.
Proof.
  revert obs r t s. induction fuel as [|fuel IH]; intros obs r t s H; simpl in H;
    [discriminate|].
  apply bind_Ok_inv in H as ([[[new_obs r1] t1] done] & s1 & Hs & H).
  apply rollout_step_trace in Hs
    as (pre & action & no & rw & d & w2 & w & _ & Hr & T & F & _).
  injection Hr as -> -> -> ->.
  destruct (selection_no_flags pre F) as [_ RD].
  pose proof (selection_no_rewards pre F) as RW.
  destruct d.
  - injection H as <- <- <-. eexists. exists 0%nat. split; [exact T|].
    rewrite raw_dones_app, rewards_app, RD, RW. simpl. repeat split. lia.
  - apply IH in H as (new & n & T' & D' & Ht' & Hr').
    eexists. exists (S n). rewrite T', T, <- !app_assoc. split; [reflexivity|].
    rewrite !raw_dones_app, !rewards_app, RD, RW. simpl.
    rewrite D'. repeat split; [lia|exact Hr'].
Qed.

(** One candidate: its episode runs up to the first true done signal, and
    appends one fitness, the sum of the rewards of the episode started
    from 0. *)
Lemma rollout_candidate_fitness fuel a en p (s : Self C) a' en' s' :
  rollout_candidate h fuel a en p s = Ok (a', en') s' ->
  exists new n, trace s' = trace s ++ new /\
    raw_dones new = repeat false n ++ [true] /\
    a' = a + Z.of_nat n + 1 /\
    fitnesses s' = fitnesses s ++ [fold_left Qplus (rewards new) 0%Q].
Proof.
  unfold rollout_candidate, run_episode. intros H.
  apply bind_Ok_inv in H as ([] & s0 & H0 & H). injection H0 as <-.
  apply bind_Ok_inv in H as (obs & s1 & H1 & H).
  unfold call in H1. simpl in H1.
  destruct (env_reset C (actor_load_from_vector C p (world s))) as [obs' w1].
  injection H1 as <- <-.
  apply bind_Ok_inv in H as ([er et] & s2 & H2 & H).
  pose proof (episode_loop_keeps_fitnesses h _ _ _ _ _ _ _ H2) as K2.
  apply episode_loop_log in H2 as (ne & n & T2 & D2 & Ht & Hr).
  apply bind_Ok_inv in H as ([] & s3 & H3 & H).
  assert (P3 : fitnesses s3 = fitnesses s2 /\
               exists np, trace s3 = trace s2 ++ np /\ rewards np = [] /\
                          raw_dones np = []).
  { unfold print_episode in H3. destruct (1 <? verbose h).
    - unfold bind, get_num_timesteps, emit in H3. injection H3 as <-.
      split; [reflexivity|]. eexists. repeat split.
    - injection H3 as <-. split; [reflexivity|]. exists [].
      rewrite app_nil_r. repeat split. }
  destruct P3 as (K3 & np & T3 & R3 & D3).
  unfold bind, append_fitness, ret in H. injection H as <- <- <-.
  unfold keeps_fitnesses in K2. simpl in *.
  eexists. exists n. rewrite T3, T2. simpl. rewrite <- !app_assoc.
  split; [reflexivity|]. simpl.
  rewrite raw_dones_app, rewards_app, R3, D3, !app_nil_r, K3, K2, Hr.
  repeat split; [exact D2|lia].
Qed.

Lemma rollout_loop_fitness fuel pop a en (s : Self C) a' en' s' :
  rollout_loop h fuel pop a en s = Ok (a', en') s' ->
  exists fs, fitnesses s' = fitnesses s ++ fs /\ length fs = length pop.
Proof.
  revert a en s. induction pop as [|p pop IH]; intros a en s H; simpl in H.
  - injection H as <- <- <-. exists []. rewrite app_nil_r. split; reflexivity.
  - apply bind_Ok_inv in H as ([a1 en1] & s1 & H1 & H).
    apply rollout_candidate_fitness in H1 as (n1 & k1 & _ & _ & _ & F1).
    apply IH in H as (fs & F2 & L2).
    eexists. rewrite F2, F1, <- app_assoc. split; [reflexivity|].
    simpl. rewrite L2. reflexivity.
Qed.

End Episodes.

(** ** Further properties *)

(** X1: when [_setup_model] succeeds, the strategy was created after the
    base class built the networks, around the actor's flattened parameters:
    [mu_init] is that vector and the dimension its length; antithetic
    sampling is requested exactly when [pop_size] is even, and [parents] is
    half of [pop_size] rounded down. *)
Theorem setup_model_strategy_arguments (C : Collab) (h : Hyper) (w w2 : World C) :
  _setup_model h w = inr w2 ->
  exists w1 args,
    td3_setup_model C w = Some w1 /\
    cem_new C args w1 = Some w2 /\
    cem_mu_init _ args = parameters_to_vector C w1 /\
    cem_num_params _ args = vec_len C (parameters_to_vector C w1) /\
    cem_pop_size _ args = pop_size h /\
    (cem_antithetic _ args = true <-> exists k, pop_size h = 2 * k) /\
    2 * cem_parents _ args <= pop_size h < 2 * cem_parents _ args + 2 /\
    cem_sigma_init _ args = sigma_init h /\ cem_damp _ args = damp h /\
    cem_damp_limit _ args = damp_limit h /\ cem_elitism _ args = elitism h.
Proof.
  unfold _setup_model. destruct (td3_setup_model C w) as [w1|]; [|discriminate].
  match goal with
  | |- match cem_new C ?a w1 with _ => _ end = _ -> _ => set (args := a)
  end.
  destruct (cem_new C args w1) as [w2'|] eqn:E; [|discriminate].
  intros H; injection H as <-. exists w1, args.
  split; [reflexivity|]. split; [exact E|]. simpl.
  split; [reflexivity|]. split; [reflexivity|]. split; [reflexivity|]. split.
  { rewrite negb_involutive, Z.eqb_eq. split.
    - intros Hm. exists (pop_size h / 2).
      pose proof (Z.div_mod (pop_size h) 2 ltac:(lia)). lia.
    - intros [k ->]. rewrite Z.mul_comm. apply Z.mod_mul. lia. }
  split.
  { pose proof (Z.div_mod (pop_size h) 2 ltac:(lia)).
    pose proof (Z.mod_pos_bound (pop_size h) 2 ltac:(lia)). lia. }
  repeat split.
Qed.

Lemma setup_model_strategy_arguments_witness :
  exists w2 args,
    _setup_model (C := Toy.collab) (Toy.hyper 1 0) Toy.w0 = inr w2 /\
    cem_antithetic _ args = true /\ cem_parents (Vec Toy.collab) args = 1.
Proof.
  destruct (setup_model_strategy_arguments Toy.collab (Toy.hyper 1 0) Toy.w0 Toy.w0 eq_refl)
    as (w1 & args & _ & _ & _ & _ & _ & HA & HP & _).
  exists Toy.w0, args. split; [reflexivity|]. split.
  - apply HA. exists 1. reflexivity.
  - change (pop_size (Toy.hyper 1 0)) with 2 in HP. lia.
Defined.

Lemma learn_loop_exit (C : Collab) (h : Hyper) fuel total cb ef ne l (s : Self C) l' s' :
  learn_loop h fuel total cb ef ne l s = Ok l' s' ->
  total <= num_timesteps s' \/
  (num_timesteps s' < total /\
   exists f pre, cb = Some f /\ trace s' = pre ++ [EvCallback (PyBool false)]).
Proof.
  revert l s. induction fuel as [|fuel IH]; intros l s H; simpl in H; [discriminate|].
  unfold bind at 1 in H. unfold get_num_timesteps in H.
  destruct (Z.ltb_spec (num_timesteps s) total) as [Hlt|Hge].
  - apply bind_Ok_inv in H as (sig & s1 & Hg & H). destruct sig as [|l1].
    + injection H as <- <-. right. destruct cb as [f|].
      * rewrite generation_with_callback in Hg.
        destruct (is_False (callback_value h f l s)) eqn:E.
        -- injection Hg as <-. apply is_False_iff in E. split; [exact Hlt|].
           exists f, (trace s ++ [EvAsk (pop_size h) (es_params (after_ask h s))]).
           split; [reflexivity|]. simpl. rewrite E, <- app_assoc. reflexivity.
        -- apply bind_Ok_inv in Hg as (l1 & s2 & _ & Hr). discriminate.
      * rewrite generation_without_callback in Hg.
        apply bind_Ok_inv in Hg as (l1 & s2 & _ & Hr). discriminate.
    + apply IH in H. exact H.
  - injection H as <- <-. left. exact Hge.
Qed.

(** X2: [learn] returns only when the budget is spent
    ([num_timesteps >= total_timesteps]) or when the callback has just
    returned [False] with the budget not yet spent; without a callback it
    never returns early.  Called with the budget already spent it does
    return, at once: the result is produced with the state unchanged,
    without any call. *)
Theorem learn_returns_when_done_or_stopped (C : Collab) (h : Hyper) (fuel : nat)
    (total : Z) (cb : option (Callback C)) (ef ne : Z) (s : Self C) :
  (forall l' s',
     learn h fuel total cb ef ne s = Ok l' s' ->
     (total <= num_timesteps s' \/
      (num_timesteps s' < total /\
       exists f pre, cb = Some f /\ trace s' = pre ++ [EvCallback (PyBool false)])) /\
     (cb = None -> total <= num_timesteps s') /\
     (total <= num_timesteps s -> s' = s)) /\
  (total <= num_timesteps s ->
   learn h (S fuel) total cb ef ne s = Ok (mkLocals 0 0 0 []) s).
Proof.
  split.
  - intros l' s' H. unfold learn in H.
    pose proof (learn_loop_exit C h _ _ _ _ _ _ _ _ _ H) as E.
    split; [exact E|]. split.
    + intros ->. destruct E as [E|(_ & f & pre & Hf & _)]; [exact E|discriminate].
    + intros Hge. destruct fuel as [|fuel']; [discriminate|]. simpl in H.
      unfold bind, get_num_timesteps in H. apply Z.ltb_ge in Hge. rewrite Hge in H.
      injection H as _ <-. reflexivity.
  - intros Hge. unfold learn. simpl. unfold bind, get_num_timesteps.
    apply Z.ltb_ge in Hge. rewrite Hge. reflexivity.
Qed.

(** The toy run of 6 steps ends with the budget spent; called again on the
    state it left, [learn] returns at once. *)
Lemma learn_returns_when_done_or_stopped_witness :
  learn (C := Toy.collab) (Toy.hyper 1 0) 10 6 None (-1) 5 Toy.self0
    = Ok Toy.run6_locals Toy.run6_state /\
  6 <= num_timesteps Toy.run6_state /\
  learn (C := Toy.collab) (Toy.hyper 1 0) 1 6 None (-1) 5 Toy.run6_state
    = Ok (mkLocals 0 0 0 []) Toy.run6_state.
Proof.
  assert (E : learn (C := Toy.collab) (Toy.hyper 1 0) 10 6 None (-1) 5 Toy.self0
              = Ok Toy.run6_locals Toy.run6_state) by (vm_compute; reflexivity).
  split; [exact E|].
  assert (N : 6 <= num_timesteps Toy.run6_state).
  { apply (proj1 (proj2 (proj1 (learn_returns_when_done_or_stopped _ _ _ _ _ _ _ _)
                                 _ _ E))).
    reflexivity. }
  split; [exact N|].
  exact (proj2 (learn_returns_when_done_or_stopped Toy.collab (Toy.hyper 1 0) 0 6 None
                  (-1) 5 Toy.run6_state) N).
Defined.

(** X3: over a whole run of [learn], [num_timesteps] grows by exactly the
    number of [env.step] calls, every environment step is stored once in
    the replay buffer, and [num_timesteps] never decreases; the steps
    [evaluate_policy] may make inside the collaborator are not counted. *)
Theorem learn_counts_every_step (C : Collab) (h : Hyper) (fuel : nat) (total : Z)
    (cb : option (Callback C)) (ef ne : Z) (s : Self C) l' s' :
  learn h fuel total cb ef ne s = Ok l' s' ->
  exists new, trace s' = trace s ++ new /\
    num_timesteps s' = num_timesteps s + env_steps new /\
    replay_adds new = env_steps new /\
    num_timesteps s <= num_timesteps s'.
Proof.
  intros H. apply learn_loop_stored_once in H as (new & T & N & A & P).
  exists new. repeat split; try assumption. lia.
Qed.

Lemma learn_counts_every_step_witness :
  exists new : list (Event Toy.collab),
    learn (C := Toy.collab) (Toy.hyper 1 0) 10 6 None (-1) 5 Toy.self0
      = Ok Toy.run6_locals Toy.run6_state /\
    trace Toy.run6_state = trace Toy.self0 ++ new /\
    num_timesteps Toy.run6_state = 0 + env_steps new.
Proof.
  assert (E : learn (C := Toy.collab) (Toy.hyper 1 0) 10 6 None (-1) 5 Toy.self0
              = Ok Toy.run6_locals Toy.run6_state) by (vm_compute; reflexivity).
  destruct (learn_counts_every_step _ _ _ _ _ _ _ _ _ _ E) as (new & T & N & _).
  exists new. split; [exact E|]. split; [exact T|exact N].
Defined.

(** X4: as long as [num_timesteps] has not passed [start_timesteps], the
    policy is never asked for an action: a run of [learn] that ends with
    [num_timesteps <= start_timesteps] made no [select_action] call.  A step
    made with [num_timesteps >= start_timesteps] begins by asking the policy
    for an action, with the current observation. *)
Theorem warm_up_samples_actions (C : Collab) (h : Hyper) :
  (forall fuel total cb ef ne (s : Self C) l' s',
     learn h fuel total cb ef ne s = Ok l' s' ->
     num_timesteps s' <= start_timesteps h ->
     exists new, trace s' = trace s ++ new /\ existsb is_select_action new = false) /\
  (forall obs r t (s : Self C) res s',
     rollout_step h obs r t s = Ok res s' ->
     start_timesteps h <= num_timesteps s ->
     exists action w rest,
       trace s' = trace s ++ EvSelectAction obs action :: rest /\
       select_action C obs (world s) = (action, w)).
Proof.
  split.
  - intros fuel total cb ef ne s l' s' H Hs.
    apply learn_loop_warm_up in H as [_ (new & T & W)].
    exists new. split; [exact T|apply W, Hs].
  - intros obs r t s res s' H Hs.
    apply rollout_step_inv in H
      as (a0 & s1 & a1 & s2 & new_obs & reward & done & w3 & Hc & Hp & He & -> & ->).
    apply perturb_evolves in Hp as [(n2 & T2 & _) _].
    apply choose_action_spec in Hc as (w & [(Hlt & _)|(_ & E & ->)]); [lia|].
    exists a0, w. eexists. simpl. rewrite T2. simpl. rewrite <- !app_assoc.
    split; [reflexivity|exact E].
Qed.

(** X5: in a generation that runs to its end, [tell] is the last call and it
    receives the population together with a fitness list of the same
    length: the list is emptied by the ask phase, left alone by the
    callback, the gradient phase and the evaluation, and the rollout phase
    appends one fitness per candidate. *)
Theorem tell_gets_one_fitness_per_candidate (C : Collab) (h : Hyper) (fuel : nat)
    (cb : option (Callback C)) (ef ne : Z) (l : Locals) (s : Self C) l' s' :
  generation h fuel cb ef ne l s = Ok (Continue l') s' ->
  exists pre,
    trace s' = pre ++ [EvTell (es_params s') (fitnesses s')] /\
    length (fitnesses s') = length (es_params s') /\
    length (es_params s') = length (fst (es_ask C (pop_size h) (world s))).
Proof.
  intros H. apply generation_continue_inv in H.
  assert (F0 : fitnesses (body_start h cb l s) = []) by (destruct cb; reflexivity).
  destruct (body_start_spec h cb l s) as (pre0 & _ & _ & _ & Np & Pp).
  apply generation_body_inv in H
    as (sg & tse & evs & se & a & en & sr & Hg & He & Hr & -> & ->).
  rewrite maybe_gradient_phase_spec in Hg.
  assert (Hgrad : fitnesses sg = [] /\
            length (es_params sg) = length (es_params (body_start h cb l s))).
  { destruct (0 <? num_timesteps (body_start h cb l s)).
    - pose proof (gradient_phase_keeps_fitnesses h _ _ _ _ Hg) as K.
      pose proof (gradient_phase_evolves h _ _ _ _ Hg) as (_ & _ & _ & L).
      unfold keeps_fitnesses in K. split; congruence.
    - injection Hg as <-. split; [exact F0|reflexivity]. }
  destruct Hgrad as [Fg Lg].
  pose proof (eval_phase_keeps_fitnesses h _ _ _ _ _ _ _ He) as Ke.
  apply eval_phase_evolves in He as (_ & Pe & _ & _).
  unfold keeps_fitnesses in Ke.
  unfold rollout_phase, bind, get_es_params in Hr.
  pose proof (rollout_loop_fitness h _ _ _ _ _ _ _ _ Hr) as (fs & Ff & Lf).
  apply rollout_loop_spec in Hr as (nr & _ & _ & _ & Pr & _).
  exists (trace sr). simpl. split; [reflexivity|].
  rewrite Ff, Ke, Fg, Pr. simpl. split; [exact Lf|].
  rewrite (Pe eq_refl), Lg, Pp. reflexivity.
Qed.

Lemma tell_gets_one_fitness_per_candidate_witness :
  generation (C := Toy.collab) (Toy.hyper 1 0) 9 None (-1) 5 (mkLocals 0 0 0 [])
    Toy.self0 = Ok (Continue Toy.gen1_locals) Toy.gen1_state /\
  length (fitnesses Toy.gen1_state) = length (es_params Toy.gen1_state).
Proof.
  assert (E : generation (C := Toy.collab) (Toy.hyper 1 0) 9 None (-1) 5
                (mkLocals 0 0 0 []) Toy.self0
              = Ok (Continue Toy.gen1_locals) Toy.gen1_state) by (vm_compute; reflexivity).
  destruct (tell_gets_one_fitness_per_candidate _ _ _ _ _ _ _ _ _ _ E) as (pre & _ & L & _).
  split; [exact E|exact L].
Defined.

(** X6: the episode of a candidate goes on while [env.step] returns a false
    done signal and ends with the first true one, whatever flag was stored;
    it makes at least one step, adds its number of steps to [actor_steps],
    and appends to the fitness list the sum of its rewards, added in order
    starting from 0. *)
Theorem candidate_fitness_is_reward_sum (C : Collab) (h : Hyper) (fuel : nat)
    (a en : Z) (p : Vec C) (s : Self C) a' en' s' :
  rollout_candidate h fuel a en p s = Ok (a', en') s' ->
  exists new n,
    trace s' = trace s ++ new /\
    raw_dones new = repeat false n ++ [true] /\
    length (rewards new) = S n /\
    a' = a + Z.of_nat n + 1 /\
    fitnesses s' = fitnesses s ++ [fold_left Qplus (rewards new) 0%Q].
Proof.
  intros H.
  pose proof (rollout_candidate_fitness h _ _ _ _ _ _ _ _ H) as (new & n & T & D & A & F).
  exists new, n. split; [exact T|]. split; [exact D|]. split; [|split; assumption].
  assert (L : forall t : list (Event C), length (rewards t) = length (raw_dones t)).
  { induction t as [|e t IH]; simpl; [reflexivity|].
    destruct e as [| | | | | | | | | | | | | | | |x [[o r] d]| | | | | |];
      simpl; rewrite ?IH; reflexivity. }
  rewrite L, D, length_app, repeat_length. simpl. lia.
Qed.

Lemma candidate_fitness_is_reward_sum_witness :
  rollout_candidate (C := Toy.collab) (Toy.hyper 1 0) 5 0 0 10 Toy.self0
    = Ok (2, 1) Toy.episode1_state /\
  exists new : list (Event Toy.collab),
    fitnesses Toy.episode1_state = [] ++ [fold_left Qplus (rewards new) 0%Q].
Proof.
  assert (E : rollout_candidate (C := Toy.collab) (Toy.hyper 1 0) 5 0 0 10 Toy.self0
              = Ok (2, 1) Toy.episode1_state) by (vm_compute; reflexivity).
  destruct (candidate_fitness_is_reward_sum _ _ _ _ _ _ _ _ _ _ E)
    as (new & n & _ & _ & _ & _ & F).
  split; [exact E|]. exists new. exact F.
Defined.

(** X7: with [action_noise_std <= 0] a step draws no noise and does not
    clip: the selected action goes to [env.step] multiplied by
    [max_action], and is stored in the replay buffer as selected, even when
    it lies outside [-1, 1]. *)
Theorem quiet_action_not_clipped (C : Collab) (h : Hyper) obs r t (s : Self C) res s' :
  ~ (0 < action_noise_std h)%Q ->
  rollout_step h obs r t s = Ok res s' ->
  exists raw w1 ret w2 flag,
    (if num_timesteps s <? start_timesteps h
     then action_space_sample C (world s) else select_action C obs (world s)) = (raw, w1) /\
    env_step C (map (Qmult (max_action C)) raw) w1 = (ret, w2) /\
    trace s' = trace s ++
      [(if num_timesteps s <? start_timesteps h
        then EvActionSample raw else EvSelectAction obs raw);
       EvStep (map (Qmult (max_action C)) raw) ret;
       EvAdd obs (fst (fst ret)) raw (snd (fst ret)) flag].
Proof.
  intros Hn H. apply rollout_step_inv in H
    as (a0 & s1 & a1 & s2 & new_obs & reward & done & w3 & Hc & Hp & He & -> & ->).
  rewrite perturb_quiet in Hp by exact Hn. injection Hp as <- <-.
  apply choose_action_spec in Hc as (w1 & Hc).
  exists a0, w1, (new_obs, reward, done), w3,
    (done_flag (env_max_episode_steps C w3) t done).
  destruct Hc as [(Hlt & E & ->)|(Hge & E & ->)].
  - apply Z.ltb_lt in Hlt. rewrite Hlt. split; [exact E|]. split; [exact He|].
    simpl. rewrite <- app_assoc. reflexivity.
  - apply Z.ltb_ge in Hge. rewrite Hge. split; [exact E|]. split; [exact He|].
    simpl. rewrite <- app_assoc. reflexivity.
Qed.

(** A warm-up step of the toy environment without noise: the sampled action
    3 is stored as it is. *)
Lemma quiet_action_not_clipped_witness :
  exists (ret : Obs Toy.collab * Q * bool) flag,
    rollout_step (C := Toy.collab) (Toy.hyper 1 0) 0 0%Q 0 Toy.self0
      = Ok Toy.step1_result Toy.step1_state /\
    trace Toy.step1_state =
      [] ++ [EvActionSample (C := Toy.collab) [3%Q];
             EvStep (C := Toy.collab) [2 * 3]%Q ret;
             EvAdd (C := Toy.collab) 0 (fst (fst ret)) [3%Q] (snd (fst ret)) flag].
Proof.
  assert (E : rollout_step (C := Toy.collab) (Toy.hyper 1 0) 0 0%Q 0 Toy.self0
              = Ok Toy.step1_result Toy.step1_state) by (vm_compute; reflexivity).
  assert (Hn : ~ (0 < action_noise_std (Toy.hyper 1 0))%Q) by (intros H; discriminate H).
  destruct (quiet_action_not_clipped Toy.collab (Toy.hyper 1 0) _ _ _ _ _ _ Hn E)
    as (raw & w1 & ret & w2 & flag & Hs & _ & T).
  injection Hs as <- <-.
  exists ret, flag. split; [exact E|exact T].
Defined.

(** X8: with [eval_freq <= 0], as with the default -1, a run of [learn]
    never calls [evaluate_policy]. *)
Theorem nonpositive_eval_freq_never_evaluates (C : Collab) (h : Hyper) (fuel : nat)
    (total : Z) (cb : option (Callback C)) (ef ne : Z) (s : Self C) l' s' :
  ef <= 0 ->
  learn h fuel total cb ef ne s = Ok l' s' ->
  exists new, trace s' = trace s ++ new /\ existsb is_evaluate new = false.
Proof.
  intros Hef H. exact (learn_loop_never_evaluates h _ _ _ _ _ _ Hef _ _ _ H).
Qed.

Lemma nonpositive_eval_freq_never_evaluates_witness :
  exists new : list (Event Toy.collab),
    learn (C := Toy.collab) (Toy.hyper 1 0) 10 6 None (-1) 5 Toy.self0
      = Ok Toy.run6_locals Toy.run6_state /\
    trace Toy.run6_state = trace Toy.self0 ++ new /\ existsb is_evaluate new = false.
Proof.
  assert (E : learn (C := Toy.collab) (Toy.hyper 1 0) 10 6 None (-1) 5 Toy.self0
              = Ok Toy.run6_locals Toy.run6_state) by (vm_compute; reflexivity).
  assert (Hef : -1 <= 0) by lia.
  destruct (nonpositive_eval_freq_never_evaluates _ _ _ _ _ _ _ _ _ _ Hef E)
    as (new & T & X).
  exists new. split; [exact E|]. split; [exact T|exact X].
Defined.

(** X9: the path normalisation of [save] and [load] is idempotent: calling
    them with the normalised path does what calling them with the original
    path does; in particular [p] and [p + ".pth"] name the same file when [p]
    has no extension, and the empty path names the file ".pth". *)
Theorem normalised_path_is_fixed (C : Collab) (p : string) :
  let target := if negb (endswith p ".pth") then (p ++ ".pth")%string else p in
  (forall s : Self C, save target s = save p s) /\
  (forall env (s : Self C), load target env s = load p env s) /\
  (forall s : Self C, save (p ++ ".pth")%string s
                      = Ok tt (log (EvSave (p ++ ".pth")%string)
                                   (set_world (th_save C (p ++ ".pth")%string (world s)) s))) /\
  (forall s : Self C, save EmptyString s
                      = Ok tt (log (EvSave ".pth") (set_world (th_save C ".pth" (world s)) s))).
Proof.
  intros target.
  assert (Hfix : forall q, endswith (q ++ ".pth") ".pth" = true).
  { intros q. apply endswith_spec. exists q. reflexivity. }
  assert (Ht : endswith target ".pth" = true).
  { unfold target. destruct (endswith p ".pth") eqn:E; simpl; [exact E|apply Hfix]. }
  split; [|split; [|split]].
  - intros s. unfold save. rewrite Ht. reflexivity.
  - intros env s. unfold load. rewrite Ht. reflexivity.
  - intros s. unfold save. rewrite Hfix. reflexivity.
  - intros s. reflexivity.
Qed.

(** X10: the gradient phase only trains: when it returns, it has made no
    environment step and stored nothing in the replay buffer, and it has
    left [num_timesteps], the fitness list and the size of the population as
    they were.  With [n_grad <= 0] it does nothing at all, whatever
    [actor_steps] and [policy_freq] are. *)
Theorem gradient_phase_only_trains (C : Collab) (h : Hyper) (steps : Z) (s : Self C) :
  (n_grad h <= 0 -> gradient_phase h steps s = Ok tt s) /\
  (forall s', gradient_phase h steps s = Ok tt s' ->
     exists new, trace s' = trace s ++ new /\
       forallb gradient_event new = true /\
       env_steps new = 0 /\ replay_adds new = 0 /\
       num_timesteps s' = num_timesteps s /\
       fitnesses s' = fitnesses s /\
       length (es_params s') = length (es_params s)).
Proof.
  split.
  - intros Hn. unfold gradient_phase, py_range.
    replace (Z.to_nat (n_grad h)) with 0%nat by lia. reflexivity.
  - intros s' H.
    pose proof (gradient_phase_keeps_fitnesses h _ _ _ _ H) as K.
    apply gradient_phase_evolves in H as [(new & T & F) (_ & N & L)].
    exists new. split; [exact T|]. split; [exact F|].
    assert (Hq : forallb outside_episode new = true).
    { rewrite forallb_forall in *. intros e He. specialize (F e He).
      unfold outside_episode. destruct e; simpl in *; congruence. }
    destruct (outside_no_step_no_add new Hq) as [E A].
    split; [exact E|]. split; [exact A|]. split; [apply N; reflexivity|].
    split; [exact K|exact L].
Qed.

Lemma gradient_phase_only_trains_witness :
  gradient_phase (C := Toy.collab) (Toy.hyper 1 0) 4
    (@mkSelf Toy.collab Toy.w0 4 [10; 20] [] []) = Ok tt Toy.trained_state /\
  num_timesteps Toy.trained_state = 4.
Proof.
  assert (E : gradient_phase (C := Toy.collab) (Toy.hyper 1 0) 4
                (@mkSelf Toy.collab Toy.w0 4 [10; 20] [] []) = Ok tt Toy.trained_state)
    by (vm_compute; reflexivity).
  destruct (proj2 (gradient_phase_only_trains _ _ _ _) _ E) as (new & _ & _ & _ & _ & N & _).
  split; [exact E|exact N].
Defined.

(** X11: with [policy_freq = 0] the gradient phase cannot complete an
    iteration: for [0 < n_grad <= actor_steps] and a non-empty population it
    loads the first candidate, samples one batch, trains the critic on it,
    and then raises [ZeroDivisionError] at [it % policy_freq], before any
    actor update and before writing anything back into the population. *)
Theorem zero_policy_freq_raises (C : Collab) (h : Hyper) (steps : Z) (s : Self C) v :
  policy_freq h = 0 ->
  0 < n_grad h <= steps ->
  es_params s !! 0%nat = Some v ->
  exists b s',
    gradient_phase h steps s = Raise ZeroDivisionError s' /\
    trace s' = trace s ++
      [EvLoadActor v; EvLoadTarget v; EvNewAdam (learning_rate h);
       EvSample (batch_size h) b; EvTrainCritic b] /\
    es_params s' = es_params s /\ num_timesteps s' = num_timesteps s.
Proof.
  intros Hpf [Hn Hs] Hv.
  set (s1 := log (EvNewAdam (learning_rate h))
               (set_world (new_adam C (learning_rate h)
                  (actor_target_load_from_vector C v (actor_load_from_vector C v (world s))))
               (log (EvLoadTarget v) (log (EvLoadActor v) s)))).
  destruct (replay_sample C (batch_size h) (world s1)) as [b w] eqn:Eb.
  exists b, (log (EvTrainCritic b) (set_world (train_critic C b w)
               (log (EvSample (batch_size h) b) (set_world w s1)))).
  split.
  - unfold gradient_phase, py_range.
    destruct (Z.to_nat (n_grad h)) as [|m] eqn:Em; [lia|]. simpl.
    apply bind_Raise. unfold gradient_member.
    erewrite bind_Ok; [|unfold es_params_get; rewrite Nat2Z.id, Hv; reflexivity].
    erewrite bind_Ok; [|reflexivity].
    erewrite bind_Ok;
      [|unfold es_params_get; cbn [es_params log set_world call_];
        rewrite Nat2Z.id, Hv; reflexivity].
    erewrite bind_Ok; [|reflexivity].
    erewrite bind_Ok; [|reflexivity].
    erewrite bind_Ok;
      [|unfold py_floordiv; assert (E : (n_grad h =? 0) = false)
          by (apply Z.eqb_neq; lia); rewrite E; reflexivity].
    apply bind_Raise. unfold py_range.
    assert (Hq : 0 < steps / n_grad h) by (apply Z.div_str_pos; lia).
    destruct (Z.to_nat (2 * (steps / n_grad h))) as [|k] eqn:Ek; [lia|]. simpl.
    apply bind_Raise.
    match goal with
    | |- train_iteration h ?i ?st = _ => change st with s1
    end.
    unfold train_iteration, bind, call, call_, py_mod.
    rewrite Eb, Hpf. reflexivity.
  - simpl. rewrite <- !app_assoc. repeat split.
Qed.

Lemma zero_policy_freq_raises_witness :
  exists (b : Batch Toy.collab) s',
    gradient_phase (C := Toy.collab) (set_policy_freq 0 (Toy.hyper 1 0)) 4
      (@mkSelf Toy.collab Toy.w0 4 [10; 20] [] []) = Raise ZeroDivisionError s' /\
    trace s' = [] ++ [EvLoadActor (C := Toy.collab) 10; EvLoadTarget (C := Toy.collab) 10;
                      EvNewAdam (1 # 1000); EvSample 100 b; EvTrainCritic b].
Proof.
  destruct (zero_policy_freq_raises Toy.collab (set_policy_freq 0 (Toy.hyper 1 0)) 4
              (@mkSelf Toy.collab Toy.w0 4 [10; 20] [] []) 10)
    as (b & s' & E & T & _).
  - reflexivity.
  - simpl. lia.
  - reflexivity.
  - exists b, s'. split; [exact E|exact T].
Defined.
